(** * Vault API: catalog, search ranking and cache — a shallow embedding

    The development follows [src/index.ts].  JavaScript strings are
    sequences of UTF-16 code units, numbers that hold integers are [Z],
    the fuzzy quality and the relevance score are exact rationals [Q]
    (the rounding of IEEE doubles is not modelled), and the module-level
    variables [steamApps], [fuseInstance], [appListReady] and [cache]
    are fields of an explicit server state. *)

From Stdlib Require Import ZArith NArith QArith Lqa Lia List Bool String Ascii.
From Stdlib Require Import DecimalNat DecimalFacts Sorted Permutation.
From stdpp Require Import base option list gmap.

Set Warnings "-register-all".
Import ListNotations.

Local Open Scope Z_scope.

(* ===================================================================== *)
(** ** JavaScript strings                                                 *)
(* ===================================================================== *)

Module JsString.

(** A string is its list of UTF-16 code units. *)
Abbreviation jsstring := (list N).

(** Literals of the source, for the Basic Latin range. *)
Definition js (s : string) : jsstring :=
  List.map N_of_ascii (list_ascii_of_string s).

Definition space : N := 32%N.

(** [s.startsWith(p)] *)
Fixpoint startsWith (s p : jsstring) {struct p} : bool :=
  match p with
  | [] => true
  | c :: p' =>
      match s with
      | [] => false
      | d :: s' => N.eqb d c && startsWith s' p'
      end
  end.

(** [s.includes(p)]: [p] occurs at some position of [s]. *)
Fixpoint includes (s p : jsstring) {struct s} : bool :=
  startsWith s p ||
  match s with
  | [] => false
  | _ :: s' => includes s' p
  end.

(** [s.endsWith(p)]: the last [p.length] units of [s] are [p]. *)
Definition endsWith (s p : jsstring) : bool :=
  (length p <=? length s)%nat &&
  bool_decide (skipn (length s - length p) s = p).

(** The class [\s] of regular expressions, which is also the set
    [String.prototype.trim] strips: WhiteSpace and LineTerminator. *)
Definition is_ws (c : N) : bool :=
  ((9 <=? c) && (c <=? 13) || (c =? 32) || (c =? 160) || (c =? 5760)
   || (8192 <=? c) && (c <=? 8202) || (c =? 8232) || (c =? 8233)
   || (c =? 8239) || (c =? 8287) || (c =? 12288) || (c =? 65279))%N.

Fixpoint trimStart (s : jsstring) : jsstring :=
  match s with
  | [] => []
  | c :: s' => if is_ws c then trimStart s' else s
  end.

(** [s.trim()] *)
Definition trim (s : jsstring) : jsstring :=
  rev (trimStart (rev (trimStart s))).

(** [s.split(/\s+/)]: [cur] is the piece being read (reversed) and
    [in_ws] tells that the previous unit belonged to a separator.  As
    in JavaScript, a separator at either end of the string leaves an
    empty piece there. *)
Fixpoint split_ws_go (cur : jsstring) (in_ws : bool) (s : jsstring)
  : list jsstring :=
  match s with
  | [] => [rev cur]
  | c :: s' =>
      if is_ws c then
        if in_ws then split_ws_go cur true s'
        else rev cur :: split_ws_go [] true s'
      else split_ws_go (c :: cur) false s'
  end.

Definition split_ws (s : jsstring) : list jsstring :=
  split_ws_go [] false s.

(** [s.replace(/\s+/g, " ")] *)
Fixpoint collapse_ws (in_ws : bool) (s : jsstring) : jsstring :=
  match s with
  | [] => []
  | c :: s' =>
      if is_ws c then
        if in_ws then collapse_ws true s' else space :: collapse_ws true s'
      else c :: collapse_ws false s'
  end.

(** The character class [[®™©:]]. *)
Definition is_symbol (c : N) : bool :=
  ((c =? 174) || (c =? 8482) || (c =? 169) || (c =? 58))%N.

(** [s.replace(/[®™©:]/g, "")] *)
Definition strip_symbols (s : jsstring) : jsstring :=
  List.filter (fun c => negb (is_symbol c)) s.

(** [Array.prototype.slice(start, end)] with its treatment of negative
    and out-of-range bounds. *)
Definition slice {A} (l : list A) (start fin : Z) : list A :=
  let len := Z.of_nat (length l) in
  let k := if start <? 0 then Z.max (len + start) 0 else Z.min start len in
  let e := if fin <? 0 then Z.max (len + fin) 0 else Z.min fin len in
  firstn (Z.to_nat (Z.max (e - k) 0)) (skipn (Z.to_nat k) l).

(** [String.prototype.toLowerCase] restricted to Basic Latin: the
    letters A to Z are mapped, every other unit is kept.  It agrees
    with JavaScript on strings of code units below 128. *)
Definition lower_unit (c : N) : N :=
  if ((65 <=? c) && (c <=? 90))%N then (c + 32)%N else c.

Definition toLowerCase_latin (s : jsstring) : jsstring :=
  List.map lower_unit s.

(** [parseInt(s)] without a radix.  [None] is NaN; an absent query
    parameter is [undefined], whose string form has no digit. *)
Definition digit_val (radix : Z) (c : N) : option Z :=
  let d :=
    if ((48 <=? c) && (c <=? 57))%N then Some (Z.of_N c - 48)
    else if ((97 <=? c) && (c <=? 122))%N then Some (Z.of_N c - 87)
    else if ((65 <=? c) && (c <=? 90))%N then Some (Z.of_N c - 55)
    else None in
  match d with
  | Some v => if v <? radix then Some v else None
  | None => None
  end.

Fixpoint read_digits (radix : Z) (acc : option Z) (s : jsstring)
  : option Z :=
  match s with
  | [] => acc
  | c :: s' =>
      match digit_val radix c with
      | Some v =>
          read_digits radix (Some (default 0 acc * radix + v)) s'
      | None => acc
      end
  end.

Definition parseInt (arg : option jsstring) : option Z :=
  match arg with
  | None => None
  | Some s =>
      let s1 := trimStart s in
      let '(sign, s2) :=
        match s1 with
        | 45%N :: r => (-1, r)
        | 43%N :: r => (1, r)
        | _ => (1, s1)
        end in
      let '(radix, s3) :=
        match s2 with
        | 48%N :: 120%N :: r => (16, r)
        | 48%N :: 88%N :: r => (16, r)
        | _ => (10, s2)
        end in
      match read_digits radix None s3 with
      | Some v => Some (sign * v)
      | None => None
      end
  end.

(** The decimal form of a number that holds an integer, as a template
    literal prints it. *)
Fixpoint units_of_uint (d : Decimal.uint) : jsstring :=
  match d with
  | Decimal.Nil => []
  | Decimal.D0 d' => 48%N :: units_of_uint d'
  | Decimal.D1 d' => 49%N :: units_of_uint d'
  | Decimal.D2 d' => 50%N :: units_of_uint d'
  | Decimal.D3 d' => 51%N :: units_of_uint d'
  | Decimal.D4 d' => 52%N :: units_of_uint d'
  | Decimal.D5 d' => 53%N :: units_of_uint d'
  | Decimal.D6 d' => 54%N :: units_of_uint d'
  | Decimal.D7 d' => 55%N :: units_of_uint d'
  | Decimal.D8 d' => 56%N :: units_of_uint d'
  | Decimal.D9 d' => 57%N :: units_of_uint d'
  end.

Definition nat_str (n : nat) : jsstring := units_of_uint (Nat.to_uint n).

Definition number_str (z : Z) : jsstring :=
  (if z <? 0 then [45%N] else []) ++ nat_str (Z.abs_nat z).

End JsString.
Export JsString.

(* ===================================================================== *)
(** ** Relevance scoring                                                  *)
(* ===================================================================== *)

(** [calculateSimpleScore(name, query, fuseScore)] *)
Definition calculateSimpleScore (name query : jsstring) (fuseScore : Q) : Q :=
  let score := ((1 - fuseScore) * 100)%Q in
  if bool_decide (name = query) then 100000%Q
  else if startsWith name query then (50000 + score)%Q
  else if includes name (space :: query ++ [space])
          || endsWith name (space :: query) then (20000 + score)%Q
  else if includes name query then (10000 + score)%Q
  else if (Z.of_nat (length name) <? 30) then
    (score + inject_Z ((30 - Z.of_nat (length name)) * 5))%Q
  else score.

(** The branch of [calculateSimpleScore] that produces the score. *)
Inductive Tier := Exact | Prefix | WholeWord | Substring | Fuzzy.

Definition tier_of (name query : jsstring) : Tier :=
  if bool_decide (name = query) then Exact
  else if startsWith name query then Prefix
  else if includes name (space :: query ++ [space])
          || endsWith name (space :: query) then WholeWord
  else if includes name query then Substring
  else Fuzzy.

Definition tier_rank (t : Tier) : nat :=
  match t with
  | Exact => 4 | Prefix => 3 | WholeWord => 2 | Substring => 1 | Fuzzy => 0
  end%nat.

(** The cascade of the specification, written from its six steps.  A
    whole-word occurrence is an occurrence of the query whose left
    neighbour is a space or the start of the name and whose right
    neighbour is a space or the end of the name. *)
Module SpecScore.

Definition bounded_right (post : jsstring) : bool :=
  match post with
  | [] => true
  | c :: _ => N.eqb c space
  end.

(** [prev] is the unit before the position read, [None] at the start. *)
Fixpoint whole_word_from (prev : option N) (s query : jsstring) : bool :=
  (match prev with None => true | Some c => N.eqb c space end
   && startsWith s query
   && bounded_right (skipn (length query) s))
  || match s with
     | [] => false
     | c :: s' => whole_word_from (Some c) s' query
     end.

Definition whole_word (name query : jsstring) : bool :=
  whole_word_from None name query.

Definition baseline (q : Q) : Q := ((1 - q) * 100)%Q.

Definition spec_score (name query : jsstring) (q : Q) : Q :=
  if bool_decide (name = query) then 100000%Q
  else if startsWith name query then (50000 + baseline q)%Q
  else if whole_word name query then (20000 + baseline q)%Q
  else if includes name query then (10000 + baseline q)%Q
  else if (Z.of_nat (length name) <? 30) then
    (baseline q + inject_Z ((30 - Z.of_nat (length name)) * 5))%Q
  else baseline q.

End SpecScore.


(** The band of scores of each tier for a quality between 0 and 1. *)
Definition tier_lo (t : Tier) : Q :=
  match t with
  | Exact => 100000 | Prefix => 50000 | WholeWord => 20000
  | Substring => 10000 | Fuzzy => 0
  end%Q.

Definition tier_hi (t : Tier) : Q :=
  match t with
  | Exact => 100000 | Prefix => 50100 | WholeWord => 20100
  | Substring => 10100 | Fuzzy => 250
  end%Q.

(** The unit in front of an occurrence that follows [a], when [prev] is
    the unit in front of [a]; a word starts after a space or at the
    start of the name. *)
Definition unit_before (prev : option N) (a : jsstring) : option N :=
  match last a with
  | Some x => Some x
  | None => prev
  end.

Definition boundary (o : option N) : Prop := o = None \/ o = Some space.


(* ===================================================================== *)
(** ** What the repository takes from its platform                        *)
(* ===================================================================== *)

(** [String.prototype.toLowerCase] of the JavaScript runtime. *)
Class CaseMapping := { toLowerCase : jsstring -> jsstring }.

(** The Basic Latin mapping, for evaluating the model on ASCII inputs. *)
Definition latin_case : CaseMapping := {| toLowerCase := toLowerCase_latin |}.

(* ===================================================================== *)
(** ** Catalog                                                            *)
(* ===================================================================== *)

(** An element of the list as it is parsed; [raw_name] is [None] when
    [g.name] is not a string, where [g.name.toLowerCase()] throws. *)
Record RawApp := { raw_appid : Z; raw_name : option jsstring }.

Record App := {
  appid : Z;
  name : jsstring;
  lowerName : jsstring;
  searchName : jsstring
}.

Definition prepare `{CaseMapping} (g : RawApp) : option App :=
  match raw_name g with
  | Some n =>
      Some {| appid := raw_appid g;
              name := n;
              lowerName := toLowerCase n;
              searchName :=
                trim (collapse_ws false (strip_symbols (toLowerCase n))) |}
  | None => None
  end.

(** [prepareApps(appList)]; [None] when the [forEach] throws. *)
Fixpoint prepareApps `{CaseMapping} (appList : list RawApp)
  : option (list App) :=
  match appList with
  | [] => Some []
  | g :: rest =>
      match prepare g with
      | Some a =>
          match prepareApps rest with
          | Some l => Some (a :: l)
          | None => None
          end
      | None => None
      end
  end.

(* ===================================================================== *)
(** ** Fuse.js                                                            *)
(* ===================================================================== *)

(** [includeScore: true] makes every result carry its score. *)
Record FuseResult := { item : App; score : Q; refIndex : Z }.

(** The matcher of Fuse.js under the options of [createFuseIndex]: the
    matches of a pattern in a collection, best first. *)
Class FuzzyEngine := { fuse_matches : list App -> jsstring -> list FuseResult }.

(** An engine that answers every pattern with a given list. *)
Definition answering (rs : list FuseResult) : FuzzyEngine :=
  {| fuse_matches := fun _ _ => rs |}.

Record Fuse := { fuse_docs : list App }.

Definition createFuseIndex (apps : list App) : Fuse := {| fuse_docs := apps |}.

(** [fuse.search(pattern, { limit })] *)
Definition fuse_search `{FuzzyEngine} (f : Fuse) (pattern : jsstring)
    (limit : Z) : list FuseResult :=
  let results := fuse_matches (fuse_docs f) pattern in
  if -1 <? limit then firstn (Z.to_nat limit) results else results.

(* ===================================================================== *)
(** ** The filter, score, sort and slice block of /games/search           *)
(* ===================================================================== *)

Record ScoredApp := { game : App; relevanceScore : Q }.

(** [x || d] on numbers. *)
Definition num_or (x d : Q) : Q := if Qeq_bool x 0 then d else x.

Definition queryWords_of (queryLower : jsstring) : list jsstring :=
  List.filter (fun w => (0 <? length w)%nat) (split_ws queryLower).

Definition keep (queryWords : list jsstring) (r : FuseResult) : bool :=
  if negb (Qle_bool (num_or (score r) 1) (2 # 5)) then false
  else if (1 <? length queryWords)%nat then
    forallb (fun w => includes (lowerName (item r)) w) queryWords
  else true.

Definition scored (queryLower : jsstring) (r : FuseResult) : ScoredApp :=
  {| game := item r;
     relevanceScore :=
       calculateSimpleScore (lowerName (item r)) queryLower
         (num_or (score r) 0) |}.

(** [sort((a, b) => b.relevanceScore - a.relevanceScore)]: the sort of
    arrays is stable, so the result is the one of a stable insertion in
    descending order. *)
Fixpoint insert_sorted (a : ScoredApp) (l : list ScoredApp) : list ScoredApp :=
  match l with
  | [] => [a]
  | b :: l' =>
      if Qle_bool (relevanceScore b - relevanceScore a) 0 then a :: l
      else b :: insert_sorted a l'
  end.

Definition sort_by_relevance (l : list ScoredApp) : list ScoredApp :=
  foldr insert_sorted [] l.

Definition maxResults : Z := 200.

Definition rank_results (queryLower : jsstring) (results : list FuseResult)
  : list ScoredApp :=
  let queryWords := queryWords_of queryLower in
  firstn 100
    (sort_by_relevance
       (List.map (scored queryLower)
          (List.filter (keep queryWords) results))).

(* ===================================================================== *)
(** ** The cache                                                          *)
(* ===================================================================== *)

(** Values that travel through the cache. *)
Inductive JsVal :=
| JUndefined
| JNull
| JBool (b : bool)
| JNum (n : Z)
| JStr (s : jsstring)
| JArr (l : list JsVal)
| JObj (fields : list (jsstring * JsVal)).

Inductive CacheVal :=
| CJson (v : JsVal)
| CGames (l : list ScoredApp).

Definition js_truthy (v : JsVal) : bool :=
  match v with
  | JUndefined | JNull => false
  | JBool b => b
  | JNum n => negb (n =? 0)
  | JStr s => negb (bool_decide (s = []))
  | JArr _ | JObj _ => true
  end.

(** An array is truthy, also the empty one. *)
Definition truthy (v : CacheVal) : bool :=
  match v with
  | CJson v => js_truthy v
  | CGames _ => true
  end.

(** The npm package node-cache, as [new NodeCache({ stdTTL: 18000 })]
    behaves: an entry holds its value and the time [e_t], in
    milliseconds, after which it is gone; [e_t = 0] is an entry that
    never expires, which is what a ttl of 0 asks for. *)
Record Entry := { e_t : Z; e_v : CacheVal }.

Abbreviation Cache := (gmap jsstring Entry).

Definition stdTTL : Z := 18000.

Definition wrap (now : Z) (v : CacheVal) (ttl : option Z) : Entry :=
  let livetime :=
    match ttl with
    | Some s => if s =? 0 then 0 else now + s * 1000
    | None => if stdTTL =? 0 then 0 else now + stdTTL * 1000
    end in
  {| e_t := livetime; e_v := v |}.

(** [cache.set(key, value, ttl)] *)
Definition cache_set (now : Z) (key : jsstring) (v : CacheVal)
    (ttl : option Z) (c : Cache) : Cache :=
  <[key := wrap now v ttl]> c.

Definition expired (now : Z) (e : Entry) : bool :=
  negb (e_t e =? 0) && (e_t e <? now).

(** [cache.get(key)]: an expired entry is deleted and reads as a miss. *)
Definition cache_get (now : Z) (key : jsstring) (c : Cache)
  : option CacheVal * Cache :=
  match c !! key with
  | Some e =>
      if expired now e then (None, delete key c) else (Some (e_v e), c)
  | None => (None, c)
  end.

(** An entry that a reader at time [now] sees. *)
Definition live (now : Z) (key : jsstring) (c : Cache) (v : CacheVal) : Prop :=
  exists e, c !! key = Some e /\ expired now e = false /\ e_v e = v.

(** The seconds an entry written at [now] stays visible; [None] when it
    never expires. *)
Definition lifetime (now : Z) (e : Entry) : option Z :=
  if e_t e =? 0 then None else Some ((e_t e - now) / 1000).

Inductive Outcome (A : Type) :=
| Fulfilled (v : A)
| Rejected (status : option Z).
Arguments Fulfilled {A} v.
Arguments Rejected {A} status.

(** [getCachedOrFetch(key, fetchFn)].  The cache is read at [now]; the
    fetch runs on the cache as the read left it, may change it while it
    is awaited, and the result is stored at [later]. *)
Definition getCachedOrFetch (now later : Z) (key : jsstring)
    (fetchFn : Cache -> Outcome CacheVal * Cache) (c : Cache)
  : Outcome CacheVal * Cache :=
  let '(cached, c1) := cache_get now key c in
  match cached with
  | Some v =>
      if truthy v then (Fulfilled v, c1)
      else
        match fetchFn c1 with
        | (Fulfilled data, c2) =>
            (Fulfilled data, cache_set later key data None c2)
        | (Rejected e, c2) => (Rejected e, c2)
        end
  | None =>
      match fetchFn c1 with
      | (Fulfilled data, c2) =>
          (Fulfilled data, cache_set later key data None c2)
      | (Rejected e, c2) => (Rejected e, c2)
      end
  end.

(* ===================================================================== *)
(** ** SteamGridDB assets                                                 *)
(* ===================================================================== *)

Inductive AssetType := logos | heroes.

Definition assetType_str (t : AssetType) : jsstring :=
  match t with logos => js "logos" | heroes => js "heroes" end.

(** The body of the id lookup: [sr_id] is [None] when [data.data] is
    missing, where reading [data.data.id] throws. *)
Record SearchResp := { sr_success : bool; sr_id : option Z }.

Record AssetsResp := { ar_success : bool; ar_data : JsVal }.

(** The answers of SteamGridDB to the two requests of a lookup; a
    rejected request carries [error.response?.status]. *)
Record GridIO := {
  grid_game : Outcome SearchResp;
  grid_assets : Z -> Outcome AssetsResp
}.

Definition empty_assets : CacheVal := CJson (JArr []).

Definition assets_key (assetType : AssetType) (id : Z) : jsstring :=
  assetType_str assetType ++ js "_" ++ number_str id.

(** The [catch] of [fetchSteamGridAssets]. *)
Definition assets_failed (later : Z) (cacheKey : jsstring)
    (status : option Z) (c : Cache) : CacheVal * Cache :=
  (empty_assets,
   cache_set later cacheKey empty_assets
     (Some (if bool_decide (status = Some 404) then 3600 else 0)) c).

(** [fetchSteamGridAssets(appid, assetType)]: the cache is read at [now]
    and written at [later], after the requests. *)
Definition fetchSteamGridAssets (now later : Z) (apiKey : option jsstring)
    (io : GridIO) (id : Z) (assetType : AssetType) (c : Cache)
  : CacheVal * Cache :=
  let cacheKey := assets_key assetType id in
  let '(cached, c1) := cache_get now cacheKey c in
  let miss :=
    match apiKey with
    | None | Some [] => (empty_assets, c1)
    | Some _ =>
        match grid_game io with
        | Rejected status => assets_failed later cacheKey status c1
        | Fulfilled searchResp =>
            if negb (sr_success searchResp) then
              (empty_assets, cache_set later cacheKey empty_assets None c1)
            else
              match sr_id searchResp with
              | None => assets_failed later cacheKey None c1
              | Some gameId =>
                  match grid_assets io gameId with
                  | Rejected status =>
                      assets_failed later cacheKey status c1
                  | Fulfilled assetsResp =>
                      let assets :=
                        if ar_success assetsResp then
                          if js_truthy (ar_data assetsResp)
                          then ar_data assetsResp else JArr []
                        else JArr [] in
                      (CJson assets,
                       cache_set later cacheKey (CJson assets)
                         (Some 86400) c1)
                  end
              end
        end
    end in
  match cached with
  | Some v => if truthy v then (v, c1) else miss
  | None => miss
  end.

(** The three outcomes the specification names, for a lookup that
    reaches SteamGridDB. *)
Inductive AssetOutcome := AssetsFound | AssetsNotFound | AssetsError.

Definition failure_class (status : option Z) : AssetOutcome :=
  if bool_decide (status = Some 404) then AssetsNotFound else AssetsError.

Definition asset_outcome (io : GridIO) : AssetOutcome :=
  match grid_game io with
  | Rejected status => failure_class status
  | Fulfilled searchResp =>
      if negb (sr_success searchResp) then AssetsNotFound
      else
        match sr_id searchResp with
        | None => AssetsError
        | Some gameId =>
            match grid_assets io gameId with
            | Rejected status => failure_class status
            | Fulfilled _ => AssetsFound
            end
        end
  end.

(** The lifetime the specification gives each outcome, in seconds;
    [None] is no entry at all. *)
Definition spec_lifetime (o : AssetOutcome) : option (option Z) :=
  match o with
  | AssetsFound => Some (Some 86400)
  | AssetsNotFound => Some (Some 3600)
  | AssetsError => None
  end.

(** The lifetime of the entry a reader finds under [key] right after the
    lookup: [None] when there is no entry, [Some None] for an entry that
    never expires. *)
Definition visible_lifetime (later : Z) (key : jsstring) (c : Cache)
  : option (option Z) :=
  match c !! key with
  | Some e => Some (lifetime later e)
  | None => None
  end.

(* ===================================================================== *)
(** ** The server state and the catalog load                              *)
(* ===================================================================== *)

Record Server := {
  steamApps : list App;
  fuseInstance : option Fuse;
  appListReady : bool;
  cache : Cache
}.

Definition initial : Server :=
  {| steamApps := []; fuseInstance := None; appListReady := false;
     cache := ∅ |}.

Definition set_ready (b : bool) (st : Server) : Server :=
  {| steamApps := steamApps st; fuseInstance := fuseInstance st;
     appListReady := b; cache := cache st |}.

Definition set_cache (c : Cache) (st : Server) : Server :=
  {| steamApps := steamApps st; fuseInstance := fuseInstance st;
     appListReady := appListReady st; cache := c |}.

(** The three assignments that make a prepared list the catalog. *)
Definition activate (apps : list App) (st : Server) : Server :=
  {| steamApps := apps; fuseInstance := Some (createFuseIndex apps);
     appListReady := true; cache := cache st |}.

(** What a read of the snapshot or a request to Steam delivers:
    [Unparsable] is text that [JSON.parse] refuses or a body without the
    list where it is looked for. *)
Inductive Payload :=
| Unparsable
| Parsed (apps : list RawApp).

(** The environment of one run of [initAppList]: the result of
    [fs.readFile], of [axios.get], and whether [fs.writeFile] succeeds.
    [None] is a rejected promise. *)
Record LoadIO := {
  io_read : option Payload;
  io_fetch : option Payload;
  io_write : bool
}.

Inductive Completion := Returned | Thrown.

Definition load_from `{CaseMapping} (p : option Payload) : option (list App) :=
  match p with
  | Some (Parsed raw) => prepareApps raw
  | Some Unparsable | None => None
  end.

(** The inner [try] block. *)
Definition snapshot_path `{CaseMapping} (io : LoadIO) (st : Server)
  : Completion * Server :=
  match load_from (io_read io) with
  | Some apps => (Returned, activate apps st)
  | None => (Thrown, st)
  end.

(** The statements after the inner [try]. *)
Definition fetch_path `{CaseMapping} (io : LoadIO) (st : Server)
  : Completion * Server :=
  match load_from (io_fetch io) with
  | Some apps =>
      if io_write io then (Returned, activate apps st)
      else (Thrown, activate apps st)
  | None => (Thrown, st)
  end.

(** [initAppList()] *)
Definition initAppList `{CaseMapping} (io : LoadIO) (st : Server)
  : Completion * Server :=
  match snapshot_path io st with
  | (Returned, st1) => (Returned, st1)
  | (Thrown, st1) =>
      match fetch_path io st1 with
      | (Returned, st2) => (Returned, st2)
      | (Thrown, st2) => (Returned, set_ready false st2)
      end
  end.

(** [getAppList()]: the state after the call; the list returned is its
    [steamApps]. *)
Definition getAppList `{CaseMapping} (io : LoadIO) (st : Server) : Server :=
  match steamApps st with
  | [] => snd (initAppList io st)
  | _ :: _ => st
  end.

(* ===================================================================== *)
(** ** The routes /games/search and /games                                *)
(* ===================================================================== *)

Record Query := {
  q_q : option jsstring;
  q_page : option jsstring;
  q_perPage : option jsstring
}.

(** [n || d] on the result of [parseInt]: NaN and 0 are falsy. *)
Definition int_or (n : option Z) (d : Z) : Z :=
  match n with
  | Some z => if z =? 0 then d else z
  | None => d
  end.

(** [Math.max(1, parseInt(req.query.page) || 1)] *)
Definition page_of (param : option jsstring) : Z :=
  Z.max 1 (int_or (parseInt param) 1).

(** [Math.min(100, parseInt(req.query.perPage) || 16)] *)
Definition perPage_of (param : option jsstring) : Z :=
  Z.min 100 (int_or (parseInt param) 16).

(** [Math.ceil(a / b)] for integers, [b] not 0. *)
Definition ceil_div (a b : Z) : Z := - ((- a) / b).

Record SearchBody := {
  sb_total : Z;
  sb_page : Z;
  sb_perPage : Z;
  sb_totalPages : Z;
  sb_games : list ScoredApp
}.

Record ListBody := {
  lb_total : Z;
  lb_page : Z;
  lb_perPage : Z;
  lb_games : list App
}.

Inductive Response (A : Type) :=
| Json (body : A)
| Error (status : Z) (message : string).
Arguments Json {A} body.
Arguments Error {A} status message.

Definition search_key `{CaseMapping} (query : jsstring) : jsstring :=
  js "search_" ++ toLowerCase query.

Definition search_page (filtered : list ScoredApp) (page perPage : Z)
  : SearchBody :=
  let total := Z.of_nat (length filtered) in
  {| sb_total := total;
     sb_page := page;
     sb_perPage := perPage;
     sb_totalPages := ceil_div total perPage;
     sb_games := slice filtered ((page - 1) * perPage) (page * perPage) |}.

(** [app.get("/games/search")].  A value under the key that is not a
    list of games has no [slice] to call, and the [catch] answers 500;
    no route writes such a value under a [search_] key. *)
Definition games_search `{CaseMapping} `{FuzzyEngine} (now : Z) (io : LoadIO)
    (req : Query) (st : Server) : Response SearchBody * Server :=
  let query := trim (default [] (q_q req)) in
  match query with
  | [] => (Error 400 "Search query required", st)
  | _ :: _ =>
      let page := page_of (q_page req) in
      let perPage := perPage_of (q_perPage req) in
      let st1 := getAppList io st in
      match steamApps st1, fuseInstance st1 with
      | [], _ | _, None => (Error 503 "App list not ready", st1)
      | _ :: _, Some fuse =>
          let cacheKey := search_key query in
          let '(cached, c1) := cache_get now cacheKey (cache st1) in
          let fresh :=
            let queryLower := toLowerCase query in
            let results := fuse_search fuse query maxResults in
            let filtered := rank_results queryLower results in
            (Json (search_page filtered page perPage),
             set_cache
               (cache_set now cacheKey (CGames filtered) (Some 300) c1) st1) in
          match cached with
          | Some (CGames filtered) =>
              (Json (search_page filtered page perPage), set_cache c1 st1)
          | Some (CJson v) =>
              if js_truthy v
              then (Error 500 "Failed to fetch games", set_cache c1 st1)
              else fresh
          | None => fresh
          end
      end
  end.

(** [app.get("/games")] *)
Definition games_list `{CaseMapping} (io : LoadIO) (req : Query) (st : Server)
  : Response ListBody * Server :=
  let page := page_of (q_page req) in
  let perPage := perPage_of (q_perPage req) in
  let st1 := getAppList io st in
  match steamApps st1 with
  | [] => (Error 503 "App list not ready", st1)
  | allGames =>
      (Json {| lb_total := Z.of_nat (length allGames);
               lb_page := page;
               lb_perPage := perPage;
               lb_games :=
                 slice allGames ((page - 1) * perPage) (page * perPage) |},
       st1)
  end.

(** The [games] of a response, nothing for an error. *)
Definition games_of (r : Response ListBody) : list App :=
  match r with
  | Json body => lb_games body
  | Error _ _ => []
  end.

(** The request for page [p] with the [perPage] parameter [pp]. *)
Definition page_request (p : Z) (pp : option jsstring) : Query :=
  {| q_q := None; q_page := Some (number_str p); q_perPage := pp |}.

(** Pages [1] to [n] of /games, one request each, concatenated. *)
Definition all_pages `{CaseMapping} (io : LoadIO) (pp : option jsstring)
    (st : Server) (n : nat) : list App :=
  flat_map
    (fun p => games_of (fst (games_list io (page_request (Z.of_nat p) pp) st)))
    (seq 1 n).


(** The order the sort leaves: [a] may stand before [b]. *)
Definition ge_score (a b : ScoredApp) : Prop :=
  (relevanceScore b <= relevanceScore a)%Q.

(** The test [lowerName === queryLower] on a candidate and on a result. *)
Definition is_exact (queryLower : jsstring) (r : FuseResult) : bool :=
  bool_decide (lowerName (item r) = queryLower).

Definition exact_game (queryLower : jsstring) (a : ScoredApp) : bool :=
  bool_decide (lowerName (game a) = queryLower).

(* ===================================================================== *)
(** ** The states the server goes through                                 *)
(* ===================================================================== *)

(** Every list of games in the cache sits under the key of a query and
    is what the filter, score, sort and slice block made of some answer
    of the matcher to that query. *)
Definition games_ranked (c : Cache) : Prop :=
  forall (k : jsstring) (e : Entry) (l : list ScoredApp),
    c !! k = Some e -> e_v e = CGames l ->
    exists (queryLower : jsstring) (results : list FuseResult),
      k = js "search_" ++ queryLower /\ l = rank_results queryLower results.

(** A fetch function around a request: its answer is a JSON body and it
    does not touch the cache ([fetchAppDetails], the featured lists). *)
Definition upstream (o : Outcome JsVal) : Cache -> Outcome CacheVal * Cache :=
  fun c =>
    (match o with
     | Fulfilled v => Fulfilled (CJson v)
     | Rejected e => Rejected e
     end, c).

(** One operation of the server: a request to one of the routes or a
    run of the catalog load. *)
Inductive step `{CaseMapping} `{FuzzyEngine} : Server -> Server -> Prop :=
| step_search (now : Z) (io : LoadIO) (req : Query) (st : Server) :
    step st (snd (games_search now io req st))
| step_list (io : LoadIO) (req : Query) (st : Server) :
    step st (snd (games_list io req st))
| step_load (io : LoadIO) (st : Server) :
    step st (snd (initAppList io st))
| step_assets (now later : Z) (apiKey : option jsstring) (io : GridIO)
    (id : Z) (assetType : AssetType) (st : Server) :
    step st
      (set_cache
         (snd (fetchSteamGridAssets now later apiKey io id assetType
                 (cache st))) st)
| step_fetch (now later : Z) (key : jsstring) (o : Outcome JsVal)
    (st : Server) :
    step st
      (set_cache
         (snd (getCachedOrFetch now later key (upstream o) (cache st))) st).

Inductive reachable `{CaseMapping} `{FuzzyEngine} : Server -> Prop :=
| reach_initial : reachable initial
| reach_step (st st' : Server) :
    reachable st -> step st st' -> reachable st'.

(* ===================================================================== *)
(** ** Concrete inputs                                                    *)
(* ===================================================================== *)

Definition raw (id : Z) (n : string) : RawApp :=
  {| raw_appid := id; raw_name := Some (js n) |}.

Definition demo_raw : list RawApp :=
  [raw 570 "Dota 2"; raw 70 "Half-Life"; raw 220 "Half-Life 2";
   raw 400 "Portal"; raw 620 "Portal 2"].

Definition demo_apps : list App :=
  default [] (@prepareApps latin_case demo_raw).

(** A server whose catalog of five games is loaded. *)
Definition demo_server : Server := activate demo_apps initial.

(** No snapshot on disk and no answer from Steam. *)
Definition io_down : LoadIO :=
  {| io_read := None; io_fetch := None; io_write := false |}.

(** No snapshot on disk, Steam answers with a new list, and the write
    of the snapshot is refused. *)
Definition io_write_refused : LoadIO :=
  {| io_read := None;
     io_fetch := Some (Parsed [raw 730 "Counter-Strike 2"]);
     io_write := false |}.

(** SteamGridDB answers the id lookup with HTTP 500. *)
Definition grid_500 : GridIO :=
  {| grid_game := Rejected (Some 500);
     grid_assets := fun _ => Rejected (Some 500) |}.

(** SteamGridDB answers the id lookup with [success: false]. *)
Definition grid_unknown : GridIO :=
  {| grid_game := Fulfilled {| sr_success := false; sr_id := None |};
     grid_assets := fun _ => Rejected (Some 404) |}.

(** SteamGridDB answers the id lookup with HTTP 404. *)
Definition grid_404 : GridIO :=
  {| grid_game := Rejected (Some 404);
     grid_assets := fun _ => Rejected (Some 404) |}.

(** SteamGridDB knows the game and has one logo for it. *)
Definition grid_ok : GridIO :=
  {| grid_game := Fulfilled {| sr_success := true; sr_id := Some 2254 |};
     grid_assets := fun _ =>
       Fulfilled {| ar_success := true;
                    ar_data := JArr [JObj [(js "id", JNum 123)]] |} |}.

Definition api_key : option jsstring := Some (js "k").

(** A fetch that is fulfilled with [v] and leaves the cache alone. *)
Definition fetch_value (v : JsVal) : Cache -> Outcome CacheVal * Cache :=
  fun c => (Fulfilled (CJson v), c).

Definition details_key : jsstring := js "appDetails_570".

(** The cache after a first [getCachedOrFetch] at time 0 whose fetch
    was fulfilled with [null]. *)
Definition cache_with_null : Cache :=
  snd (getCachedOrFetch 0 0 details_key (fetch_value JNull) ∅).

(** The game "Half: Life" as [prepareApps] leaves it, and the answer of
    the matcher that finds it for the query "half: life". *)
Definition half_life_app : App :=
  default {| appid := 0; name := []; lowerName := []; searchName := [] |}
    (@prepare latin_case (raw 70 "Half: Life")).

Definition half_life_hit : FuseResult :=
  {| item := half_life_app; score := 1 # 1000; refIndex := 0 |}.

Definition half_life_query : Query :=
  {| q_q := Some (js "Half: Life"); q_page := None; q_perPage := None |}.

(** A candidate named "Dota" with a given id and quality. *)
Definition dota_hit (id : Z) (q : Q) : FuseResult :=
  {| item := {| appid := id; name := js "Dota"; lowerName := js "dota";
                searchName := js "dota" |};
     score := q; refIndex := id |}.

(** 101 candidates named "Dota", ids 1 to 101, each of quality 1/10. *)
Definition many_dota : list FuseResult :=
  List.map (fun i => dota_hit (Z.of_nat i) (1 # 10)) (seq 1 101).

(** The snapshot on disk holds the five games. *)
Definition io_snapshot : LoadIO :=
  {| io_read := Some (Parsed demo_raw); io_fetch := None; io_write := false |}.

Definition dota_query : Query :=
  {| q_q := Some (js "dota"); q_page := None; q_perPage := None |}.

(** The snapshot on disk holds the game "Half: Life". *)
Definition io_half_life : LoadIO :=
  {| io_read := Some (Parsed [raw 70 "Half: Life"]); io_fetch := None;
     io_write := false |}.

(** The first page of the answer to the query "Half: Life". *)
Definition half_life_body : SearchBody :=
  search_page (rank_results (js "half: life") [half_life_hit]) 1 16.

(* ===================================================================== *)
(** ** Shapes of strings and catalogs                                     *)
(* ===================================================================== *)

(** Every white-space unit of [s] is a space that follows a unit that is
    not white space; [prev_ws] tells that the unit in front of [s] is
    white space. *)
Fixpoint spaced (prev_ws : bool) (s : jsstring) : bool :=
  match s with
  | [] => true
  | c :: s' =>
      if is_ws c then negb prev_ws && N.eqb c space && spaced true s'
      else spaced false s'
  end.

(** The derived fields of a record are those [prepareApps] computes
    from its name. *)
Definition prepared `{CaseMapping} (a : App) : Prop :=
  lowerName a = toLowerCase (name a) /\
  searchName a = trim (collapse_ws false (strip_symbols (toLowerCase (name a)))).

(** The index is the one of the active catalog, and the records of the
    catalog are prepared; before any load there is neither. *)
Definition catalog_consistent `{CaseMapping} (st : Server) : Prop :=
  Forall prepared (steamApps st) /\
  match fuseInstance st with
  | Some f => fuse_docs f = steamApps st
  | None => steamApps st = [] /\ appListReady st = false
  end.

(** The games of a relevance score equal to [s]. *)
Definition score_is (s : Q) (a : ScoredApp) : bool :=
  Qeq_bool (relevanceScore a) s.

(* ===================================================================== *)
(** ** Item details and the asset routes                                  *)
(* ===================================================================== *)

(** A number in a template literal; [None] is NaN. *)
Definition num_str (n : option Z) : jsstring :=
  match n with
  | Some z => number_str z
  | None => js "NaN"
  end.

(** The property of an object under a key; the keys of an object are
    distinct. *)
Fixpoint assoc (k : jsstring) (fields : list (jsstring * JsVal)) : JsVal :=
  match fields with
  | [] => JUndefined
  | (k', v) :: rest => if bool_decide (k' = k) then v else assoc k rest
  end.

(** [v[n]] for a number [n]: reading a property of [null] or
    [undefined] throws; an array or a string answers for an index in
    range; no other value has a property with a numeric name. *)
Definition js_index (v : JsVal) (n : option Z) : Outcome JsVal :=
  match v with
  | JUndefined | JNull => Rejected None
  | JObj fields => Fulfilled (assoc (num_str n) fields)
  | JArr l =>
      match n with
      | Some z =>
          if (0 <=? z) && (z <? Z.of_nat (length l))
          then Fulfilled (nth (Z.to_nat z) l JUndefined)
          else Fulfilled JUndefined
      | None => Fulfilled JUndefined
      end
  | JStr s =>
      match n with
      | Some z =>
          if (0 <=? z) && (z <? Z.of_nat (length s))
          then Fulfilled (JStr [nth (Z.to_nat z) s 0%N])
          else Fulfilled JUndefined
      | None => Fulfilled JUndefined
      end
  | JBool _ | JNum _ => Fulfilled JUndefined
  end.

(** [v.success] and [v.data] on a value that is not [null] or
    [undefined]: only an object can hold them. *)
Definition js_field (v : JsVal) (k : string) : JsVal :=
  match v with
  | JObj fields => assoc (js k) fields
  | _ => JUndefined
  end.

Definition appDetails_key (id : option Z) : jsstring :=
  js "appDetails_" ++ num_str id.

(** The fetch function of [fetchAppDetails]: [response.data[appid]] of
    the answer [o] of Steam. *)
Definition details_fetch (id : option Z) (o : Outcome JsVal)
  : Cache -> Outcome CacheVal * Cache :=
  fun c =>
    (match o with
     | Fulfilled body =>
         match js_index body id with
         | Fulfilled v => Fulfilled (CJson v)
         | Rejected e => Rejected e
         end
     | Rejected e => Rejected e
     end, c).

(** [fetchAppDetails(appid)] *)
Definition fetchAppDetails (now later : Z) (id : option Z)
    (o : Outcome JsVal) (c : Cache) : Outcome CacheVal * Cache :=
  getCachedOrFetch now later (appDetails_key id) (details_fetch id o) c.

(** [data?.success] as a condition. *)
Definition has_success (data : CacheVal) : bool :=
  match data with
  | CJson JUndefined | CJson JNull => false
  | CJson v => js_truthy (js_field v "success")
  | CGames _ => false
  end.

(** [data.data] of a value whose [success] is truthy. *)
Definition data_of (data : CacheVal) : JsVal :=
  match data with
  | CJson v => js_field v "data"
  | CGames _ => JUndefined
  end.

(** [app.get("/games/:appid")] *)
Definition games_details (now later : Z) (param : jsstring)
    (o : Outcome JsVal) (c : Cache) : Response JsVal * Cache :=
  match fetchAppDetails now later (parseInt (Some param)) o c with
  | (Fulfilled data, c') =>
      (if has_success data then Json (data_of data)
       else Error 404 "Game not found", c')
  | (Rejected _, c') => (Error 500 "Failed to fetch game details", c')
  end.

(** The body [{ logos: ... }] or [{ heroes: ... }]. *)
Record AssetsBody := { ab_kind : AssetType; ab_assets : CacheVal }.

(** [app.get("/games/:appid/logos")] and [app.get("/games/:appid/heroes")] *)
Definition games_assets (now later : Z) (apiKey : option jsstring)
    (assetType : AssetType) (param : jsstring) (io : GridIO) (c : Cache)
  : Response AssetsBody * Cache :=
  match parseInt (Some param) with
  | None => (Error 400 "Invalid appid", c)
  | Some id =>
      let '(assets, c') :=
        fetchSteamGridAssets now later apiKey io id assetType c in
      (Json {| ab_kind := assetType; ab_assets := assets |}, c')
  end.

(* ===================================================================== *)
(** ** More concrete inputs                                               *)
(* ===================================================================== *)



(* ===================================================================== *)
(** * Properties                                                          *)
(* ===================================================================== *)

(** ** The model on small inputs *)

Example score_exact :
  calculateSimpleScore (js "dota") (js "dota") (1 # 10) = 100000%Q.
Proof. reflexivity. Qed.

Example score_prefix :
  (calculateSimpleScore (js "dota 2") (js "dota") (1 # 10) == 50090)%Q.
Proof. vm_compute. reflexivity. Qed.

Example parseInt_examples :
  parseInt (Some (js "  -12px")) = Some (-12) /\
  parseInt (Some (js "0x1f")) = Some 31 /\
  parseInt (Some (js "abc")) = None /\
  parseInt (Some (js "0")) = Some 0 /\
  parseInt None = None.
Proof. repeat split; reflexivity. Qed.

Example split_examples :
  split_ws (js " a  b ") = [js ""; js "a"; js "b"; js ""] /\
  split_ws (js "") = [js ""].
Proof. split; reflexivity. Qed.

(** ** Strings *)

Lemma startsWith_spec (s p : jsstring) :
  startsWith s p = true <-> exists t, s = p ++ t.
Proof.
  revert s. induction p as [|c p IH]; intros s; simpl.
  - split; [intros _; by exists s | done].
  - destruct s as [|d s].
    + split; [done | intros [t Ht]; discriminate].
    + rewrite andb_true_iff, N.eqb_eq, IH. split.
      * intros [-> [t ->]]. by exists t.
      * intros [t Ht]. injection Ht as -> ->. split; [done | by exists t].
Qed.

Lemma includes_spec (s p : jsstring) :
  includes s p = true <-> exists a b, s = a ++ p ++ b.
Proof.
  induction s as [|d s IH]; simpl.
  - rewrite orb_false_r, startsWith_spec. split.
    + intros [t Ht]. by exists [], t.
    + intros (a & b & H). destruct a; [by exists b | discriminate].
  - rewrite orb_true_iff, startsWith_spec, IH. split.
    + intros [[t Ht] | (a & b & ->)].
      * by exists [], t.
      * by exists (d :: a), b.
    + intros (a & b & H). destruct a as [|x a].
      * left. by exists b.
      * right. injection H as -> ->. by exists a, b.
Qed.

Lemma endsWith_spec (s p : jsstring) :
  endsWith s p = true <-> exists a, s = a ++ p.
Proof.
  unfold endsWith.
  rewrite andb_true_iff, Nat.leb_le, bool_decide_eq_true. split.
  - intros [Hle Hs]. exists (firstn (length s - length p) s).
    transitivity (firstn (length s - length p) s
                  ++ skipn (length s - length p) s).
    + symmetry. apply firstn_skipn.
    + f_equal. exact Hs.
  - intros [a ->]. rewrite length_app. split; [lia |].
    replace (length a + length p - length p)%nat with (length a) by lia.
    by rewrite drop_app_length.
Qed.

Lemma includes_refl (s : jsstring) : includes s s = true.
Proof. apply includes_spec. exists [], []. by rewrite app_nil_r. Qed.

Lemma includes_part (a w b : jsstring) : includes (a ++ w ++ b) w = true.
Proof. apply includes_spec. by exists a, b. Qed.

(** ** The whole-word step of the specification and the test of the code *)

Lemma unit_before_cons prev c a :
  unit_before prev (c :: a) = unit_before (Some c) a.
Proof.
  unfold unit_before. destruct a as [|x a]; [done |].
  change (last (c :: x :: a)) with (last (x :: a)).
  destruct (last (x :: a)) eqn:E; [done |].
  by apply last_None in E.
Qed.

Lemma boundary_bool (prev : option N) :
  match prev with None => true | Some c => N.eqb c space end = true
  <-> boundary prev.
Proof.
  unfold boundary. destruct prev as [c|].
  - rewrite N.eqb_eq. split; [intros ->; by right | intros [|[= ->]]; done].
  - split; [by left | done].
Qed.

Lemma bounded_right_spec (b : jsstring) :
  SpecScore.bounded_right b = true <-> b = [] \/ exists b', b = space :: b'.
Proof.
  destruct b as [|c b]; simpl.
  - split; [by left | done].
  - rewrite N.eqb_eq. split.
    + intros ->. right. by exists b.
    + intros [|[b' [= -> _]]]; done.
Qed.

Lemma whole_word_from_spec (prev : option N) (s query : jsstring) :
  SpecScore.whole_word_from prev s query = true <->
  exists a b, s = a ++ query ++ b /\ boundary (unit_before prev a)
              /\ (b = [] \/ exists b', b = space :: b').
Proof.
  revert prev. induction s as [|c s IH]; intros prev.
  - cbn [SpecScore.whole_word_from]. rewrite orb_false_r.
    rewrite !andb_true_iff, boundary_bool, startsWith_spec, bounded_right_spec.
    split.
    + intros [[Hb [t Ht]] Hr]. symmetry in Ht.
      apply app_eq_nil in Ht as [-> ->]. exists [], []. split; [done |].
      split; [done | by left].
    + intros (a & b & H & Hb & Hr). symmetry in H.
      apply app_eq_nil in H as [-> H]. apply app_eq_nil in H as [-> ->].
      split; [split; [done | by exists []] | by left].
  - cbn [SpecScore.whole_word_from]. rewrite orb_true_iff.
    rewrite !andb_true_iff, boundary_bool, startsWith_spec, bounded_right_spec.
    rewrite IH. split.
    + intros [[[Hb [t Ht]] Hr] | (a & b & -> & Hb & Hr)].
      * exists [], t. rewrite Ht in Hr. rewrite drop_app_length in Hr.
        split; [done |]. split; [done | exact Hr].
      * exists (c :: a), b. rewrite unit_before_cons. done.
    + intros (a & b & H & Hb & Hr). destruct a as [|x a].
      * left. simpl in H. rewrite H, drop_app_length.
        split; [split; [done | by exists b] | done].
      * right. injection H as -> ->. exists a, b.
        rewrite unit_before_cons in Hb. done.
Qed.

Lemma whole_word_code (name query : jsstring) :
  startsWith name query = false ->
  SpecScore.whole_word name query =
  includes name (space :: query ++ [space]) || endsWith name (space :: query).
Proof.
  intros Hpre. apply eq_iff_eq_true.
  unfold SpecScore.whole_word.
  rewrite whole_word_from_spec, orb_true_iff, includes_spec, endsWith_spec.
  split.
  - intros (a & b & -> & Hb & Hr).
    destruct (last a) as [x|] eqn:Hlast.
    + apply last_Some in Hlast as [a' ->].
      unfold unit_before in Hb. rewrite last_snoc in Hb.
      destruct Hb as [Hb | [= ->]]; [done |].
      destruct Hr as [-> | [b' ->]].
      * right. exists a'. by rewrite app_nil_r, <- app_assoc.
      * left. exists a', b'. rewrite <- !app_assoc. simpl.
        by rewrite <- app_assoc.
    + apply last_None in Hlast as ->. simpl in Hpre.
      assert (startsWith (query ++ b) query = true) as E
        by (apply startsWith_spec; by exists b).
      congruence.
  - intros [(a & b & ->) | [a ->]].
    + exists (a ++ [space]), (space :: b). split.
      { rewrite <- !app_assoc. simpl. by rewrite <- app_assoc. }
      split.
      * unfold unit_before. rewrite last_snoc. by right.
      * right. by exists b.
    + exists (a ++ [space]), []. split.
      { by rewrite app_nil_r, <- app_assoc. }
      split.
      * unfold unit_before. rewrite last_snoc. by right.
      * by left.
Qed.

(** C2. For every name, query and fuzzy quality (whatever its value),
    [calculateSimpleScore] returns what the six-step cascade of the
    specification returns: 100000 for equal strings, 50000, 20000 or
    10000 plus the baseline [(1 - q) * 100] for a prefix, a whole-word
    occurrence or any occurrence of the query, and otherwise the
    baseline plus [(30 - len(name)) * 5] for names shorter than 30. *)
Theorem calculateSimpleScore_refines_spec (name query : jsstring) (q : Q) :
  calculateSimpleScore name query q = SpecScore.spec_score name query q.
Proof.
  unfold calculateSimpleScore, SpecScore.spec_score, SpecScore.baseline.
  destruct (bool_decide (name = query)); [reflexivity |].
  destruct (startsWith name query) eqn:Hpre; [reflexivity |].
  rewrite (whole_word_code _ _ Hpre). reflexivity.
Qed.

(** ** The bands of the tiers *)

Lemma score_in_band (name query : jsstring) (q : Q) :
  (0 <= q)%Q -> (q <= 1)%Q ->
  (tier_lo (tier_of name query) <= calculateSimpleScore name query q)%Q /\
  (calculateSimpleScore name query q <= tier_hi (tier_of name query))%Q.
Proof.
  intros Hq0 Hq1. unfold calculateSimpleScore, tier_of.
  destruct (bool_decide (name = query)); [simpl; lra |].
  destruct (startsWith name query); [simpl; lra |].
  destruct (includes name (space :: query ++ [space])
            || endsWith name (space :: query)); [simpl; lra |].
  destruct (includes name query); [simpl; lra |].
  destruct (Z.of_nat (length name) <? 30) eqn:Hlen; [| simpl; lra].
  apply Z.ltb_lt in Hlen.
  set (b := (30 - Z.of_nat (length name)) * 5).
  assert (0 <= b <= 150) as [Hb0 Hb1] by (unfold b; lia).
  rewrite Zle_Qle in Hb0, Hb1.
  change (inject_Z 0) with 0%Q in Hb0. change (inject_Z 150) with 150%Q in Hb1.
  simpl. lra.
Qed.

Lemma bands_ordered (t1 t2 : Tier) :
  (tier_rank t2 < tier_rank t1)%nat -> (tier_hi t2 < tier_lo t1)%Q.
Proof. destruct t1, t2; simpl; intros H; try lia; reflexivity. Qed.

(** C8. For qualities between 0 and 1, a score produced by a higher
    tier of [calculateSimpleScore] (exact, prefix, whole word,
    substring, pure fuzzy with its short-name boost, in this order) is
    strictly greater than any score produced by a lower tier, whatever
    the names, queries and qualities: the bands never overlap. *)
Theorem tiers_never_overlap (n1 q1 n2 q2 : jsstring) (f1 f2 : Q) :
  (0 <= f1)%Q -> (f1 <= 1)%Q -> (0 <= f2)%Q -> (f2 <= 1)%Q ->
  (tier_rank (tier_of n2 q2) < tier_rank (tier_of n1 q1))%nat ->
  (calculateSimpleScore n2 q2 f2 < calculateSimpleScore n1 q1 f1)%Q.
Proof.
  intros Ha0 Ha1 Hb0 Hb1 Hrank.
  destruct (score_in_band n1 q1 f1 Ha0 Ha1) as [Hlo _].
  destruct (score_in_band n2 q2 f2 Hb0 Hb1) as [_ Hhi].
  pose proof (bands_ordered _ _ Hrank). lra.
Qed.

Lemma tiers_never_overlap_witness :
  (calculateSimpleScore (js "ab") (js "dota") 0
   < calculateSimpleScore (js "my dota") (js "dota") 1)%Q.
Proof.
  apply (tiers_never_overlap (js "my dota") (js "dota") (js "ab") (js "dota")
           1 0); try (vm_compute; congruence).
  vm_compute. lia.
Defined.

(** ** Pagination parameters *)

Lemma games_search_reports_parameters `{CaseMapping} `{FuzzyEngine} now io req st :
  match fst (games_search now io req st) with
  | Json body => sb_page body = page_of (q_page req) /\ sb_perPage body = perPage_of (q_perPage req)
  | Error _ _ => True
  end.
Proof.
  unfold games_search.
  destruct (trim (default [] (q_q req))); [done |].
  destruct (steamApps (getAppList io st)); [done |].
  destruct (fuseInstance (getAppList io st)); [| done].
  destruct (cache_get now _ _) as [[[v|cached]|] c1]; simpl; try done.
  destruct (js_truthy v); done.
Qed.

Lemma games_list_reports_parameters `{CaseMapping} io req st :
  match fst (games_list io req st) with
  | Json body => lb_page body = page_of (q_page req) /\ lb_perPage body = perPage_of (q_perPage req)
  | Error _ _ => True
  end.
Proof.
  unfold games_list. destruct (steamApps (getAppList io st)); done.
Qed.

(** C10. For every request to /games and /games/search the page is
    [max(1, parsed page)] with an unparsable or zero value replaced by
    1, and perPage is [min(100, parsed perPage)] with an unparsable or
    zero value replaced by 16; so perPage=0 gives 16, a negative parsed
    perPage is passed on as it is, and both routes answer with these
    values. *)
Theorem pagination_parameters `{CaseMapping} `{FuzzyEngine}
    (now : Z) (io : LoadIO) (req : Query) (st : Server) :
  page_of (q_page req) =
    match parseInt (q_page req) with
    | Some z => if z =? 0 then 1 else Z.max 1 z
    | None => 1
    end /\
  perPage_of (q_perPage req) =
    match parseInt (q_perPage req) with
    | Some (Z.neg p) => Z.neg p
    | Some z => if z =? 0 then 16 else Z.min 100 z
    | None => 16
    end /\
  perPage_of (Some (js "0")) = 16 /\
  match fst (games_search now io req st) with
  | Json body => sb_page body = page_of (q_page req) /\ sb_perPage body = perPage_of (q_perPage req)
  | Error _ _ => True
  end /\
  match fst (games_list io req st) with
  | Json body => lb_page body = page_of (q_page req) /\ lb_perPage body = perPage_of (q_perPage req)
  | Error _ _ => True
  end.
Proof.
  split; [| split; [| split; [| split]]].
  - unfold page_of, int_or. destruct (parseInt (q_page req)) as [z|]; [| done].
    destruct (z =? 0); done.
  - unfold perPage_of, int_or.
    destruct (parseInt (q_perPage req)) as [[|p|p]|]; done.
  - reflexivity.
  - apply games_search_reports_parameters.
  - apply games_list_reports_parameters.
Qed.

(** ** Decimal page numbers are read back by [parseInt] *)

Lemma read_digits_uint (d : Decimal.uint) (a : nat) :
  read_digits 10 (Some (Z.of_nat a)) (units_of_uint d)
  = Some (Z.of_nat (Nat.of_uint_acc d a)).
Proof.
  revert a. induction d; intros a; [reflexivity | ..];
    cbn [units_of_uint read_digits Nat.of_uint_acc];
    rewrite Nat.tail_mul_spec; rewrite <- IHd; f_equal; f_equal;
    cbn; lia.
Qed.

Lemma read_digits_start (d : Decimal.uint) :
  d <> Decimal.Nil ->
  read_digits 10 None (units_of_uint d) = Some (Z.of_nat (Nat.of_uint d)).
Proof.
  unfold Nat.of_uint.
  destruct d; [done | ..]; intros _;
    cbn [units_of_uint read_digits Nat.of_uint_acc];
    rewrite <- read_digits_uint; f_equal.
Qed.

Lemma parseInt_units (d : Decimal.uint) :
  parseInt (Some (units_of_uint d))
  = match read_digits 10 None (units_of_uint d) with
    | Some v => Some (1 * v)
    | None => None
    end.
Proof.
  destruct d as [|d|d|d|d|d|d|d|d|d|d]; try reflexivity;
    destruct d; reflexivity.
Qed.

Lemma parseInt_nat_str (n : nat) :
  parseInt (Some (nat_str n)) = Some (Z.of_nat n).
Proof.
  unfold nat_str. rewrite parseInt_units, read_digits_start.
  - rewrite Unsigned.of_to. f_equal. destruct (Z.of_nat n); reflexivity.
  - rewrite <- (Unsigned.of_to n) at 1. rewrite Unsigned.to_of.
    apply unorm_nonnil.
Qed.

Lemma parseInt_number_str (n : nat) :
  parseInt (Some (number_str (Z.of_nat n))) = Some (Z.of_nat n).
Proof.
  unfold number_str. destruct (Z.of_nat n <? 0) eqn:E; [apply Z.ltb_lt in E; lia |].
  simpl. rewrite Zabs2Nat.id. apply parseInt_nat_str.
Qed.

(** ** The pages of /games *)

Lemma slice_window {A} (l : list A) (k : nat) (per : Z) :
  1 <= per ->
  slice l (Z.of_nat k * per) ((Z.of_nat k + 1) * per)
  = take (Z.to_nat per) (drop (k * Z.to_nat per) l).
Proof.
  intros Hper. unfold slice. cbv zeta.
  set (len := Z.of_nat (length l)).
  assert (0 <= Z.of_nat k * per) as Hk by nia.
  assert (0 < (Z.of_nat k + 1) * per) as Hf by nia.
  destruct (Z.of_nat k * per <? 0) eqn:E1; [apply Z.ltb_lt in E1; lia |].
  destruct ((Z.of_nat k + 1) * per <? 0) eqn:E2; [apply Z.ltb_lt in E2; lia |].
  assert (Z.of_nat (k * Z.to_nat per) = Z.of_nat k * per) as Hnat by nia.
  destruct (Z_lt_le_dec (Z.of_nat k * per) len) as [Hin | Hout].
  - rewrite (Z.min_l (Z.of_nat k * per) len) by lia.
    replace (Z.to_nat (Z.of_nat k * per)) with (k * Z.to_nat per)%nat by lia.
    destruct (Z_le_gt_dec ((Z.of_nat k + 1) * per) len) as [Hfit | Hcut].
    + rewrite (Z.min_l ((Z.of_nat k + 1) * per) len) by lia. f_equal. lia.
    + rewrite (Z.min_r ((Z.of_nat k + 1) * per) len) by lia.
      rewrite !take_ge; [done | |]; rewrite length_drop; unfold len in *; lia.
  - rewrite (Z.min_r (Z.of_nat k * per) len) by lia.
    rewrite (Z.min_r ((Z.of_nat k + 1) * per) len) by lia.
    rewrite Z.sub_diag. simpl.
    rewrite (drop_ge l (k * Z.to_nat per)) by (unfold len in *; lia).
    by destruct (Z.to_nat per).
Qed.

Lemma windows_concat {A} (l : list A) (m n : nat) :
  flat_map (fun p => take m (drop ((p - 1) * m) l)) (seq 1 n)
  = take (n * m) l.
Proof.
  induction n as [|n IH]; [done |].
  rewrite seq_S, flat_map_app, IH. simpl.
  rewrite app_nil_r.
  replace (n - 0)%nat with n by lia.
  rewrite take_take_drop. f_equal. lia.
Qed.

Lemma ceil_div_covers (len per : Z) :
  0 <= len -> 1 <= per -> 0 <= ceil_div len per /\ len <= ceil_div len per * per.
Proof.
  intros Hlen Hper. unfold ceil_div.
  pose proof (Z.div_mod (- len) per ltac:(lia)) as Hdm.
  pose proof (Z.mod_pos_bound (- len) per ltac:(lia)) as Hmod.
  assert ((- len) / per <= 0) by (apply Z.div_le_upper_bound; lia).
  nia.
Qed.

Lemma games_list_page `{CaseMapping} (io : LoadIO) (pp : option jsstring)
    (st : Server) (p : nat) :
  steamApps st <> [] -> (1 <= p)%nat ->
  games_of (fst (games_list io (page_request (Z.of_nat p) pp) st))
  = slice (steamApps st) ((Z.of_nat p - 1) * perPage_of pp)
      (Z.of_nat p * perPage_of pp).
Proof.
  intros Hloaded Hp. unfold games_list, getAppList.
  destruct (steamApps st) as [|a l] eqn:Hs; [done |].
  rewrite Hs. cbn [fst games_of lb_games page_request q_page q_perPage].
  unfold page_of. rewrite parseInt_number_str. unfold int_or.
  destruct (Z.of_nat p =? 0) eqn:E; [apply Z.eqb_eq in E; lia |].
  rewrite Z.max_r by lia. reflexivity.
Qed.

(** C6. On a loaded catalog, for a perPage parameter whose effective
    value (the one the answers report, at most 100) is at least 1, the
    [games] of pages 1 to ceil(total / perPage) of GET /games, put one
    after the other, are the catalog itself, in its order, nothing
    repeated and nothing skipped; and page=2 with perPage=2 on a
    catalog of five items answers with the items at indices 2 and 3. *)
Theorem games_pages_partition `{CaseMapping} (io : LoadIO)
    (pp : option jsstring) (st : Server) :
  steamApps st <> [] ->
  1 <= perPage_of pp ->
  all_pages io pp st
    (Z.to_nat (ceil_div (Z.of_nat (length (steamApps st))) (perPage_of pp)))
  = steamApps st /\
  match steamApps st with
  | [a0; a1; a2; a3; a4] =>
      games_of (fst (games_list io
                       {| q_q := None; q_page := Some (js "2");
                          q_perPage := Some (js "2") |} st))
      = [a2; a3]
  | _ => True
  end.
Proof.
  intros Hloaded Hper. split.
  - unfold all_pages.
    set (total := Z.of_nat (length (steamApps st))).
    destruct (ceil_div_covers total (perPage_of pp)) as [Hn0 Hcover];
      [unfold total; lia | done |].
    set (n := Z.to_nat (ceil_div total (perPage_of pp))) in *.
    transitivity
      (flat_map
         (fun p => take (Z.to_nat (perPage_of pp))
                     (drop ((p - 1) * Z.to_nat (perPage_of pp)) (steamApps st)))
         (seq 1 n)).
    + rewrite !flat_map_concat_map. f_equal.
      apply map_ext_in. intros p Hp. apply in_seq in Hp.
      rewrite games_list_page by (done || lia).
      rewrite <- (slice_window _ (p - 1)) by done.
      f_equal; f_equal; lia.
    + rewrite windows_concat. apply take_ge. unfold n, total in *. nia.
  - destruct (steamApps st) as [|a0 [|a1 [|a2 [|a3 [|a4 [|a5 l]]]]]] eqn:Hs;
      try done.
    unfold games_list, getAppList. rewrite Hs. cbv iota. rewrite Hs.
    reflexivity.
Qed.

Lemma games_pages_partition_witness :
  @all_pages latin_case io_down (Some (js "2")) demo_server 3
  = steamApps demo_server.
Proof.
  apply (proj1 (@games_pages_partition latin_case io_down (Some (js "2"))
                  demo_server ltac:(vm_compute; discriminate)
                  ltac:(vm_compute; discriminate))).
Defined.

(** ** The catalog load *)

Lemma initAppList_returns `{CaseMapping} (io : LoadIO) (st : Server) :
  fst (initAppList io st) = Returned.
Proof.
  unfold initAppList, snapshot_path, fetch_path.
  destruct (load_from (io_read io)); [done |].
  destruct (load_from (io_fetch io)); [| done].
  by destruct (io_write io).
Qed.

(** When both paths throw, the flag is false and the catalog is either
    untouched or, when only the write of the snapshot failed, replaced
    as a whole by the new list together with its index. *)
Lemma initAppList_both_fail `{CaseMapping} (io : LoadIO) (st s1 s2 : Server) :
  snapshot_path io st = (Thrown, s1) ->
  fetch_path io s1 = (Thrown, s2) ->
  appListReady (snd (initAppList io st)) = false /\
  cache (snd (initAppList io st)) = cache st /\
  ((load_from (io_fetch io) = None /\
    steamApps (snd (initAppList io st)) = steamApps st /\
    fuseInstance (snd (initAppList io st)) = fuseInstance st) \/
   (exists apps,
      load_from (io_fetch io) = Some apps /\ io_write io = false /\
      steamApps (snd (initAppList io st)) = apps /\
      fuseInstance (snd (initAppList io st)) = Some (createFuseIndex apps))).
Proof.
  unfold initAppList, snapshot_path, fetch_path.
  destruct (load_from (io_read io)); [done |]. intros [= <-].
  destruct (load_from (io_fetch io)) as [apps|].
  - destruct (io_write io) eqn:Hw; [done |]. intros [= <-]. simpl.
    split; [done |]. split; [done |]. right. by exists apps.
  - intros [= <-]. simpl. split; [done |]. split; [done |]. by left.
Qed.

(** C5. The code at the failing input: the snapshot cannot be read,
    Steam answers with a new list, and the write of the snapshot is
    refused.  Both paths end in the [catch], which sets the ready flag
    to false and does not throw, but the catalog that was active is
    gone: [steamApps] and the index are those of the new list. *)
Theorem initAppList_write_failure_replaces_catalog :
  @snapshot_path latin_case io_write_refused demo_server
    = (Thrown, demo_server) /\
  fst (@fetch_path latin_case io_write_refused demo_server) = Thrown /\
  fst (@initAppList latin_case io_write_refused demo_server) = Returned /\
  appListReady (snd (@initAppList latin_case io_write_refused demo_server))
    = false /\
  List.map appid
    (steamApps (snd (@initAppList latin_case io_write_refused demo_server)))
    = [730] /\
  steamApps (snd (@initAppList latin_case io_write_refused demo_server))
    <> steamApps demo_server.
Proof.
  repeat split; try reflexivity.
  intros Heq. apply (f_equal (@length App)) in Heq. vm_compute in Heq.
  discriminate.
Qed.

(** ** The get-or-compute primitive *)

Lemma cache_get_live (now : Z) (key : jsstring) (c : Cache) (v : CacheVal) :
  live now key c v -> cache_get now key c = (Some v, c).
Proof.
  intros (e & Hk & Hexp & <-). unfold cache_get. by rewrite Hk, Hexp.
Qed.

Lemma cache_get_not_live (now : Z) (key : jsstring) (c : Cache) :
  (forall v, live now key c v -> truthy v = false) ->
  match fst (cache_get now key c) with
  | Some v => truthy v = false
  | None => True
  end.
Proof.
  intros Hno. unfold cache_get.
  destruct (c !! key) as [e|] eqn:Hk; [| done].
  destruct (expired now e) eqn:Hexp; [done |].
  simpl. apply Hno. by exists e.
Qed.

(** C7, as the code has it.  A live entry whose value is truthy is
    returned as it is, whatever the fetch function is, and the cache is
    left alone.  When no live entry with a truthy value exists (none, an
    expired one, or a live one holding a falsy value) the fetch function
    runs on the cache as the read left it: a fulfilled fetch is stored
    under the key with the default lifetime and returned, a rejected one
    stores nothing and its failure is the outcome. *)
Theorem getCachedOrFetch_contract (now later : Z) (key : jsstring)
    (fetchFn : Cache -> Outcome CacheVal * Cache) (c : Cache) :
  (forall v, live now key c v -> truthy v = true ->
     getCachedOrFetch now later key fetchFn c = (Fulfilled v, c)) /\
  ((forall v, live now key c v -> truthy v = false) ->
     getCachedOrFetch now later key fetchFn c =
       match fetchFn (snd (cache_get now key c)) with
       | (Fulfilled data, c2) =>
           (Fulfilled data, cache_set later key data None c2)
       | (Rejected e, c2) => (Rejected e, c2)
       end).
Proof.
  split.
  - intros v Hlive Ht. unfold getCachedOrFetch.
    rewrite (cache_get_live _ _ _ _ Hlive). by rewrite Ht.
  - intros Hno. apply cache_get_not_live in Hno.
    unfold getCachedOrFetch.
    destruct (cache_get now key c) as [[v|] c1]; simpl in *; [| done].
    by rewrite Hno.
Qed.

Lemma getCachedOrFetch_contract_witness :
  getCachedOrFetch 1000 2000 details_key (fetch_value (JNum 1))
    (cache_set 0 details_key (CJson (JObj [])) None ∅)
  = (Fulfilled (CJson (JObj [])),
     cache_set 0 details_key (CJson (JObj [])) None ∅).
Proof.
  apply (proj1 (getCachedOrFetch_contract 1000 2000 details_key
                  (fetch_value (JNum 1))
                  (cache_set 0 details_key (CJson (JObj [])) None ∅))).
  - exists (wrap 0 (CJson (JObj [])) None). repeat split.
  - reflexivity.
Defined.

(** C7 as it is stated fails on a live entry that holds a falsy value:
    after a fetch fulfilled with [null] the entry is live, and the next
    call runs its fetch function and returns that result instead. *)
Lemma getCachedOrFetch_live_entry_counterexample :
  live 1000 details_key cache_with_null (CJson JNull) /\
  fst (getCachedOrFetch 1000 2000 details_key (fetch_value (JNum 1))
         cache_with_null)
  = Fulfilled (CJson (JNum 1)) /\
  getCachedOrFetch 1000 2000 details_key (fetch_value (JNum 1))
    cache_with_null
  <> (Fulfilled (CJson JNull), cache_with_null).
Proof.
  split; [| split].
  - exists (wrap 0 (CJson JNull) None). repeat split.
  - vm_compute. reflexivity.
  - intros Heq. apply (f_equal fst) in Heq. vm_compute in Heq.
    discriminate.
Qed.

(** ** The lifetimes of asset entries *)

Lemma lifetime_wrap (later s : Z) (v : CacheVal) :
  0 <= later -> 0 < s ->
  lifetime later (wrap later v (Some s)) = Some s.
Proof.
  intros Hl Hs. unfold lifetime, wrap.
  destruct (s =? 0) eqn:E; [apply Z.eqb_eq in E; lia |]. cbn [e_t].
  destruct (later + s * 1000 =? 0) eqn:E2; [apply Z.eqb_eq in E2; lia |].
  f_equal. replace (later + s * 1000 - later) with (s * 1000) by lia.
  apply Z.div_mul. lia.
Qed.

Lemma lifetime_wrap_default (later : Z) (v : CacheVal) :
  0 <= later -> lifetime later (wrap later v None) = Some stdTTL.
Proof.
  intros Hl. unfold lifetime, wrap, stdTTL.
  change (18000 =? 0) with false. cbv iota. cbn [e_t].
  destruct (later + 18000 * 1000 =? 0) eqn:E2; [apply Z.eqb_eq in E2; lia |].
  f_equal. replace (later + 18000 * 1000 - later) with (18000 * 1000) by lia.
  apply Z.div_mul. lia.
Qed.

Lemma lifetime_wrap_zero (later : Z) (v : CacheVal) :
  lifetime later (wrap later v (Some 0)) = None.
Proof. reflexivity. Qed.

(** What a lookup that reaches SteamGridDB leaves under its key: 24
    hours when both requests are answered, the default 5 hours when the
    id lookup answers [success: false], 1 hour after an HTTP 404, and an
    entry without expiry after any other failure. *)
Lemma fetchSteamGridAssets_lifetimes (now later : Z) (k : jsstring)
    (io : GridIO) (id : Z) (assetType : AssetType) (c : Cache) :
  0 <= later -> k <> [] ->
  c !! assets_key assetType id = None ->
  visible_lifetime later (assets_key assetType id)
    (snd (fetchSteamGridAssets now later (Some k) io id assetType c))
  = match grid_game io with
    | Rejected status =>
        if bool_decide (status = Some 404) then Some (Some 3600)
        else Some None
    | Fulfilled searchResp =>
        if negb (sr_success searchResp) then Some (Some 18000)
        else
          match sr_id searchResp with
          | None => Some None
          | Some gameId =>
              match grid_assets io gameId with
              | Rejected status =>
                  if bool_decide (status = Some 404) then Some (Some 3600)
                  else Some None
              | Fulfilled _ => Some (Some 86400)
              end
          end
    end.
Proof.
  intros Hl Hk Hmiss. unfold fetchSteamGridAssets, cache_get.
  rewrite Hmiss. destruct k as [|x k]; [done |].
  assert (forall status,
    visible_lifetime later (assets_key assetType id)
      (snd (assets_failed later (assets_key assetType id) status c))
    = if bool_decide (status = Some 404) then Some (Some 3600) else Some None)
    as Hfail.
  { intros status. unfold assets_failed, visible_lifetime, cache_set. simpl.
    rewrite lookup_insert_eq. destruct (bool_decide (status = Some 404)).
    - by rewrite lifetime_wrap by lia.
    - by rewrite lifetime_wrap_zero. }
  destruct (grid_game io) as [searchResp | status]; [| apply Hfail].
  destruct (sr_success searchResp); simpl.
  - destruct (sr_id searchResp) as [gameId|]; [| apply Hfail].
    destruct (grid_assets io gameId) as [assetsResp | status]; [| apply Hfail].
    unfold visible_lifetime, cache_set. simpl. rewrite lookup_insert_eq.
    by rewrite lifetime_wrap by lia.
  - unfold visible_lifetime, cache_set. rewrite lookup_insert_eq.
    by rewrite lifetime_wrap_default.
Qed.

(** C4. The code at the failing inputs.  After an HTTP 500 from
    SteamGridDB the lookup writes the empty list with a ttl of 0, which
    the cache keeps without expiry where the specification has no entry:
    every later lookup of that game, at any time and whatever
    SteamGridDB would answer then, is served the empty list from the
    cache.  And an id lookup answered with [success: false] is kept for
    the default 18000 seconds, where the specification and the HTTP
    404 path have 3600. *)
Theorem fetchSteamGridAssets_error_is_kept_forever :
  let after_500 :=
    snd (fetchSteamGridAssets 1000 2000 api_key grid_500 570 logos ∅) in
  let after_unknown :=
    snd (fetchSteamGridAssets 1000 2000 api_key grid_unknown 570 logos ∅) in
  let after_404 :=
    snd (fetchSteamGridAssets 1000 2000 api_key grid_404 570 logos ∅) in
  spec_lifetime (asset_outcome grid_500) = None /\
  visible_lifetime 2000 (assets_key logos 570) after_500 = Some None /\
  (forall (t t' : Z) (io : GridIO),
     fetchSteamGridAssets t t' api_key io 570 logos after_500
     = (empty_assets, after_500)) /\
  spec_lifetime (asset_outcome grid_unknown) = Some (Some 3600) /\
  visible_lifetime 2000 (assets_key logos 570) after_unknown
    = Some (Some 18000) /\
  visible_lifetime 2000 (assets_key logos 570) after_404 = Some (Some 3600).
Proof.
  repeat split.
Qed.

(** ** The sort *)

Lemma insert_sorted_perm (a : ScoredApp) (l : list ScoredApp) :
  Permutation (insert_sorted a l) (a :: l).
Proof.
  induction l as [|b l IH]; simpl; [done |].
  destruct (Qle_bool (relevanceScore b - relevanceScore a) 0); [done |].
  rewrite IH. apply perm_swap.
Qed.

Lemma sort_by_relevance_perm (l : list ScoredApp) :
  Permutation (sort_by_relevance l) l.
Proof.
  induction l as [|a l IH]; simpl; [done |].
  rewrite insert_sorted_perm. by constructor.
Qed.

Lemma insert_sorted_sorted (a : ScoredApp) (l : list ScoredApp) :
  StronglySorted ge_score l -> StronglySorted ge_score (insert_sorted a l).
Proof.
  induction l as [|b l IH]; intros Hs; simpl.
  - repeat constructor.
  - apply StronglySorted_inv in Hs as [Hl Hb].
    destruct (Qle_bool (relevanceScore b - relevanceScore a) 0) eqn:E.
    + apply Qle_bool_iff in E.
      constructor; [by constructor |].
      constructor.
      * unfold ge_score. lra.
      * eapply Forall_impl; [exact Hb |].
        intros x Hx. unfold ge_score in *. simpl in *. lra.
    + assert (¬ (relevanceScore b - relevanceScore a <= 0)%Q) as Hgt.
      { intros Hle. apply Qle_bool_iff in Hle. congruence. }
      constructor; [by apply IH |].
      eapply Permutation_Forall.
      * symmetry. apply insert_sorted_perm.
      * constructor; [| done]. unfold ge_score. lra.
Qed.

Lemma sort_by_relevance_sorted (l : list ScoredApp) :
  StronglySorted ge_score (sort_by_relevance l).
Proof.
  induction l as [|a l IH]; simpl; [constructor |].
  by apply insert_sorted_sorted.
Qed.

Lemma sorted_lookup (l : list ScoredApp) (i j : nat) (a b : ScoredApp) :
  StronglySorted ge_score l ->
  l !! i = Some a -> l !! j = Some b -> (i < j)%nat -> ge_score a b.
Proof.
  intros Hs. revert i j. induction Hs as [|x l Hs IH Hx]; intros i j Hi Hj Hij.
  - done.
  - destruct j as [|j]; [lia |]. simpl in Hj.
    destruct i as [|i]; simpl in Hi.
    + injection Hi as <-. rewrite Forall_forall in Hx. apply Hx.
      by eapply list_elem_of_lookup_2.
    + eapply IH; [done | done | lia].
Qed.

(** ** The words of a query *)

Lemma split_ws_go_parts (s cur pre : jsstring) (in_ws : bool) (w : jsstring) :
  (in_ws = true -> cur = []) ->
  In w (split_ws_go cur in_ws s) ->
  exists a b, pre ++ rev cur ++ s = a ++ w ++ b.
Proof.
  revert cur pre in_ws.
  induction s as [|c s IH]; intros cur pre in_ws Hinv Hin; simpl in Hin.
  - destruct Hin as [<- | []]. by exists pre, [].
  - destruct (is_ws c).
    + destruct in_ws.
      * rewrite (Hinv eq_refl) in *. simpl.
        destruct (IH [] (pre ++ [c]) true ltac:(done) Hin) as (a & b & Hab).
        exists a, b. rewrite <- Hab. simpl. by rewrite <- app_assoc.
      * destruct Hin as [<- | Hin]; [by exists pre, (c :: s) |].
        destruct (IH [] (pre ++ rev cur ++ [c]) true ltac:(done) Hin)
          as (a & b & Hab).
        exists a, b. rewrite <- Hab. simpl. by rewrite <- !app_assoc.
    + destruct (IH (c :: cur) pre false ltac:(done) Hin) as (a & b & Hab).
      exists a, b. rewrite <- Hab. simpl. by rewrite <- !app_assoc.
Qed.

Lemma queryWords_are_parts (queryLower w : jsstring) :
  In w (queryWords_of queryLower) -> includes queryLower w = true.
Proof.
  unfold queryWords_of, split_ws. intros Hin.
  apply filter_In in Hin as [Hin _].
  destruct (split_ws_go_parts queryLower [] [] false w ltac:(done) Hin)
    as (a & b & Hab).
  simpl in Hab. rewrite Hab. apply includes_part.
Qed.

(** ** What the returned list is made of *)

Lemma rank_results_in (queryLower : jsstring) (results : list FuseResult)
    (a : ScoredApp) :
  In a (rank_results queryLower results) ->
  exists r, In r results /\ keep (queryWords_of queryLower) r = true
            /\ a = scored queryLower r.
Proof.
  unfold rank_results. intros Hin.
  apply list_elem_of_In, elem_of_take in Hin as (i & Hin & _).
  apply list_elem_of_lookup_2, list_elem_of_In in Hin.
  apply (Permutation_in _ (sort_by_relevance_perm _)) in Hin.
  apply in_map_iff in Hin as (r & <- & Hr).
  apply filter_In in Hr as [Hr Hk]. by exists r.
Qed.

(** The multi-word test of the block: with at least two query words,
    every game of the list contains every word in its [lowerName]. *)
Lemma rank_results_multiword (queryLower : jsstring)
    (results : list FuseResult) (a : ScoredApp) (w : jsstring) :
  (1 < length (queryWords_of queryLower))%nat ->
  In a (rank_results queryLower results) ->
  In w (queryWords_of queryLower) ->
  includes (lowerName (game a)) w = true.
Proof.
  intros Hmulti Ha Hw.
  apply rank_results_in in Ha as (r & _ & Hkeep & ->).
  unfold keep in Hkeep.
  destruct (negb (Qle_bool (num_or (score r) 1) (2 # 5))); [done |].
  apply Nat.ltb_lt in Hmulti. rewrite Hmulti in Hkeep.
  rewrite forallb_forall in Hkeep. by apply Hkeep.
Qed.

(** C3 as it is stated fails: for the query "Half: Life" the game
    "Half: Life" is kept, although its normalized name "half life" does
    not contain the query word "half:". *)
Lemma multiword_filter_searchName_counterexample :
  let queryLower := js "half: life" in
  queryWords_of queryLower = [js "half:"; js "life"] /\
  List.map (fun a => appid (game a))
    (rank_results queryLower [half_life_hit]) = [70] /\
  searchName half_life_app = js "half life" /\
  includes (searchName half_life_app) (js "half:") = false /\
  match fst (@games_search latin_case (answering [half_life_hit]) 1000
               io_down half_life_query (activate [half_life_app] initial)) with
  | Json body => List.map (fun a => searchName (game a)) (sb_games body)
                 = [js "half life"]
  | Error _ _ => False
  end.
Proof.
  repeat split; vm_compute; reflexivity.
Qed.

(** ** Exact matches *)

Lemma exact_score (queryLower : jsstring) (r : FuseResult) :
  lowerName (item r) = queryLower ->
  relevanceScore (scored queryLower r) = 100000%Q.
Proof.
  intros He. unfold scored, calculateSimpleScore. simpl.
  by rewrite bool_decide_eq_true_2.
Qed.

Lemma nonexact_score (name query : jsstring) (q : Q) :
  name <> query -> (0 <= q)%Q ->
  (calculateSimpleScore name query q < 100000)%Q.
Proof.
  intros Hne Hq. unfold calculateSimpleScore.
  rewrite bool_decide_eq_false_2 by done.
  destruct (startsWith name query); [lra |].
  destruct (includes name (space :: query ++ [space])
            || endsWith name (space :: query)); [lra |].
  destruct (includes name query); [lra |].
  destruct (Z.of_nat (length name) <? 30) eqn:Hlen; [| lra].
  apply Z.ltb_lt in Hlen.
  set (b := (30 - Z.of_nat (length name)) * 5).
  assert (b <= 150) as Hb by (unfold b; lia).
  rewrite Zle_Qle in Hb. change (inject_Z 150) with 150%Q in Hb. lra.
Qed.

Lemma num_or_nonneg (x : Q) : (0 <= x)%Q -> (0 <= num_or x 0)%Q.
Proof. intros Hx. unfold num_or. destruct (Qeq_bool x 0); lra. Qed.

Lemma keep_exact (queryLower : jsstring) (r : FuseResult) :
  lowerName (item r) = queryLower ->
  (0 < score r)%Q -> (score r <= 2 # 5)%Q ->
  keep (queryWords_of queryLower) r = true.
Proof.
  intros He Hpos Hcut. unfold keep, num_or.
  destruct (Qeq_bool (score r) 0) eqn:E0.
  { apply Qeq_bool_iff in E0. lra. }
  apply Qle_bool_iff in Hcut. rewrite Hcut. simpl.
  destruct (1 <? length (queryWords_of queryLower))%nat; [| done].
  apply forallb_forall. intros w Hw. rewrite He.
  by apply queryWords_are_parts.
Qed.

Lemma filter_length_perm {A} (f : A -> bool) (l l' : list A) :
  Permutation l l' ->
  length (List.filter f l) = length (List.filter f l').
Proof.
  induction 1 as [| x l l' _ IH | x y l | l l' l'' _ IH1 _ IH2]; simpl.
  - done.
  - destruct (f x); simpl; congruence.
  - destruct (f x), (f y); done.
  - congruence.
Qed.

Lemma filter_map_scored (queryLower : jsstring) (l : list FuseResult) :
  List.filter (exact_game queryLower) (List.map (scored queryLower) l)
  = List.map (scored queryLower) (List.filter (is_exact queryLower) l).
Proof.
  induction l as [|r l IH]; simpl; [done |].
  unfold exact_game at 1, is_exact at 1. simpl.
  destruct (bool_decide (lowerName (item r) = queryLower)); simpl;
    by rewrite IH.
Qed.

Lemma filter_filter_and {A} (f g : A -> bool) (l : list A) :
  List.filter g (List.filter f l) = List.filter (fun x => f x && g x) l.
Proof.
  induction l as [|x l IH]; simpl; [done |].
  destruct (f x); simpl; [| done]. destruct (g x); by rewrite IH.
Qed.

Lemma filter_prefix_length {A} (f : A -> bool) (pre post : list A) (x : A) :
  Forall (fun y => f y = true) pre -> f x = true ->
  (length pre + 1 <= length (List.filter f (pre ++ x :: post)))%nat.
Proof.
  intros Hpre Hx. rewrite List.filter_app, length_app. simpl. rewrite Hx.
  simpl. rewrite (forallb_filter_id f pre); [lia |].
  apply forallb_forall. rewrite Forall_forall in Hpre.
  intros y Hy. apply Hpre. by apply list_elem_of_In.
Qed.

Lemma sorted_member (queryLower : jsstring) (results : list FuseResult)
    (b : ScoredApp) :
  In b (sort_by_relevance
          (List.map (scored queryLower)
             (List.filter (keep (queryWords_of queryLower)) results))) ->
  exists r, In r results /\ keep (queryWords_of queryLower) r = true
            /\ b = scored queryLower r.
Proof.
  intros Hin.
  apply (Permutation_in _ (sort_by_relevance_perm _)) in Hin.
  apply in_map_iff in Hin as (r & <- & Hr).
  apply filter_In in Hr as [Hr Hk]. by exists r.
Qed.

Lemma sorted_member_score (queryLower : jsstring) (results : list FuseResult)
    (b : ScoredApp) :
  (forall x, In x results -> (0 <= score x)%Q) ->
  In b (sort_by_relevance
          (List.map (scored queryLower)
             (List.filter (keep (queryWords_of queryLower)) results))) ->
  (lowerName (game b) = queryLower -> relevanceScore b = 100000%Q) /\
  (lowerName (game b) <> queryLower -> (relevanceScore b < 100000)%Q).
Proof.
  intros Hq Hin. apply sorted_member in Hin as (r & Hr & _ & ->). split.
  - apply exact_score.
  - intros Hne. simpl in *. apply nonexact_score; [done |].
    apply num_or_nonneg. by apply Hq.
Qed.

(** C1, as the code has it.  Let the matcher return candidates of
    non-negative quality.  A candidate whose lowercased name is the
    lowercased query and whose quality [q] has [0 < q <= 0.4] passes the
    filter, the multi-word test included, and scores 100000; every
    other game of the returned list scores less than 100000, and in the
    returned list every exact match stands before every other game;
    the candidate is in the returned list whenever at most 100 exact
    matches pass the filter.  (Candidates are dropped by the cutoff, by
    the multi-word test and by the cut to 100 entries.) *)
Theorem exact_match_dominance (queryLower : jsstring)
    (results : list FuseResult) (r : FuseResult) :
  (forall x, In x results -> (0 <= score x)%Q) ->
  In r results ->
  lowerName (item r) = queryLower ->
  (0 < score r)%Q -> (score r <= 2 # 5)%Q ->
  let ranked := rank_results queryLower results in
  keep (queryWords_of queryLower) r = true /\
  relevanceScore (scored queryLower r) = 100000%Q /\
  (forall b, In b ranked -> lowerName (game b) <> queryLower ->
     (relevanceScore b < 100000)%Q) /\
  (forall (i j : nat) (a b : ScoredApp),
     ranked !! i = Some a -> ranked !! j = Some b ->
     lowerName (game a) = queryLower -> lowerName (game b) <> queryLower ->
     (i < j)%nat) /\
  ((length (List.filter
              (fun x => keep (queryWords_of queryLower) x
                        && is_exact queryLower x) results) <= 100)%nat ->
   In (scored queryLower r) ranked).
Proof.
  intros Hq Hr He Hpos Hcut ranked.
  pose proof (keep_exact _ _ He Hpos Hcut) as Hkeep.
  set (kept := List.map (scored queryLower)
                 (List.filter (keep (queryWords_of queryLower)) results)).
  set (sorted := sort_by_relevance kept).
  assert (ranked = take 100 sorted) as Hranked by reflexivity.
  assert (forall i b, ranked !! i = Some b -> sorted !! i = Some b) as Hlook.
  { intros i b. rewrite Hranked, lookup_take_Some. tauto. }
  assert (forall i b, sorted !! i = Some b -> In b sorted) as Hmem.
  { intros i b Hi. apply list_elem_of_In. by eapply list_elem_of_lookup_2. }
  split; [done |]. split; [by apply exact_score |]. split; [| split].
  - intros b Hb Hne.
    apply list_elem_of_In, list_elem_of_lookup in Hb as [i Hi].
    apply Hlook, Hmem in Hi.
    by apply (sorted_member_score queryLower results b Hq Hi).
  - intros i j a b Hi Hj Ha Hb.
    apply Hlook in Hi, Hj.
    pose proof (proj1 (sorted_member_score _ _ a Hq (Hmem _ _ Hi)) Ha) as Hsa.
    pose proof (proj2 (sorted_member_score _ _ b Hq (Hmem _ _ Hj)) Hb) as Hsb.
    destruct (lt_eq_lt_dec i j) as [[Hlt | ->] | Hgt]; [done | |].
    + congruence.
    + pose proof (sorted_lookup sorted j i b a
                    (sort_by_relevance_sorted kept) Hj Hi Hgt) as Hge.
      unfold ge_score in Hge. rewrite Hsa in Hge. lra.
  - intros Hcount.
    assert (In (scored queryLower r) sorted) as Hin.
    { apply (Permutation_in _ (Permutation_sym (sort_by_relevance_perm _))).
      apply in_map. apply filter_In. by split. }
    apply in_split in Hin as (pre & post & Hsplit).
    assert (Forall (fun y => exact_game queryLower y = true) pre) as Hpre.
    { apply Forall_forall. intros y Hy.
      apply list_elem_of_lookup in Hy as [i Hi].
      assert (sorted !! i = Some y) as Hyi.
      { rewrite Hsplit. by apply lookup_app_l_Some. }
      assert (sorted !! length pre = Some (scored queryLower r)) as Hxi.
      { rewrite Hsplit. by rewrite list_lookup_middle. }
      apply lookup_lt_Some in Hi.
      pose proof (sorted_lookup sorted i (length pre) y _
                    (sort_by_relevance_sorted kept) Hyi Hxi Hi) as Hge.
      unfold ge_score in Hge. rewrite (exact_score _ _ He) in Hge.
      unfold exact_game. apply bool_decide_eq_true.
      destruct (decide (lowerName (game y) = queryLower)) as [| Hne]; [done |].
      pose proof (proj2 (sorted_member_score _ _ y Hq (Hmem _ _ Hyi)) Hne).
      lra. }
    assert (exact_game queryLower (scored queryLower r) = true) as Hx.
    { unfold exact_game. by apply bool_decide_eq_true. }
    pose proof (filter_prefix_length _ pre post _ Hpre Hx) as Hlen.
    rewrite <- Hsplit in Hlen.
    rewrite (filter_length_perm _ _ _ (sort_by_relevance_perm kept)) in Hlen.
    unfold kept in Hlen.
    rewrite filter_map_scored, length_map, filter_filter_and in Hlen.
    rewrite Hranked. apply list_elem_of_In.
    apply elem_of_take. exists (length pre). split; [| lia].
    rewrite Hsplit. by rewrite list_lookup_middle.
Qed.

Lemma exact_match_dominance_witness :
  In (scored (js "dota") (dota_hit 570 (1 # 10)))
    (rank_results (js "dota")
       [dota_hit 570 (1 # 10); half_life_hit]).
Proof.
  apply (exact_match_dominance (js "dota")
           [dota_hit 570 (1 # 10); half_life_hit] (dota_hit 570 (1 # 10))).
  - intros x [<- | [<- | []]]; vm_compute; discriminate.
  - left. reflexivity.
  - reflexivity.
  - reflexivity.
  - vm_compute. discriminate.
  - vm_compute. lia.
Defined.

(** C1 as it is stated fails.  Of 101 candidates named "Dota", all of
    quality 0.1, the returned list holds the first 100 and the last one
    is absent, although its name is the query; and for the query
    "half life" a candidate named "Half Baked" of quality 0.3, inside
    the cutoff, is dropped by the multi-word test. *)
Lemma exact_match_dominance_counterexample :
  In (dota_hit 101 (1 # 10)) many_dota /\
  lowerName (item (dota_hit 101 (1 # 10))) = js "dota" /\
  List.map (fun a => appid (game a)) (rank_results (js "dota") many_dota)
    = List.map Z.of_nat (seq 1 100) /\
  ~ In (scored (js "dota") (dota_hit 101 (1 # 10)))
      (rank_results (js "dota") many_dota) /\
  rank_results (js "half life")
    [{| item := {| appid := 9; name := js "Half Baked";
                   lowerName := js "half baked";
                   searchName := js "half baked" |};
        score := 3 # 10; refIndex := 0 |}] = [].
Proof.
  assert (List.map (fun a => appid (game a))
            (rank_results (js "dota") many_dota)
          = List.map Z.of_nat (seq 1 100)) as Hids
    by (vm_compute; reflexivity).
  split; [| split; [| split; [| split]]].
  - unfold many_dota. apply in_map_iff. exists 101%nat.
    split; [reflexivity |]. apply in_seq. lia.
  - reflexivity.
  - exact Hids.
  - intros Hin.
    apply (in_map (fun a => appid (game a))) in Hin.
    rewrite Hids in Hin. apply in_map_iff in Hin as (n & Hn & Hseq).
    apply in_seq in Hseq. simpl in Hn. lia.
  - vm_compute. reflexivity.
Qed.

(** A candidate of quality exactly 0 does not pass the filter, where
    [r.score || 1] reads 1 for it. *)
Lemma keep_zero_quality :
  keep (queryWords_of (js "dota")) (dota_hit 570 0) = false /\
  rank_results (js "dota") [dota_hit 570 0] = [].
Proof. split; reflexivity. Qed.

(** ** At most 100 results *)

Lemma slice_length {A} (l : list A) (start fin : Z) :
  (length (slice l start fin) <= length l)%nat.
Proof.
  unfold slice. cbv zeta. rewrite length_take, length_drop. lia.
Qed.

Lemma rank_results_length (queryLower : jsstring) (results : list FuseResult) :
  (length (rank_results queryLower results) <= 100)%nat.
Proof. unfold rank_results. rewrite length_take. lia. Qed.

Lemma fuse_search_limit `{FuzzyEngine} (f : Fuse) (pattern : jsstring) :
  (length (fuse_search f pattern maxResults) <= 200)%nat.
Proof.
  unfold fuse_search, maxResults. simpl. rewrite length_take. lia.
Qed.

Lemma slice_in {A} (l : list A) (start fin : Z) (a : A) :
  In a (slice l start fin) -> In a l.
Proof.
  unfold slice. cbv zeta. intros Hin.
  apply list_elem_of_In, elem_of_take in Hin as (i & Hin & _).
  rewrite lookup_drop in Hin.
  apply list_elem_of_In. by eapply list_elem_of_lookup_2.
Qed.

(** ** The lists of games in the cache *)

Lemma games_ranked_empty : games_ranked ∅.
Proof. intros k e l Hk. by rewrite lookup_empty in Hk. Qed.

Lemma games_ranked_delete (k : jsstring) (c : Cache) :
  games_ranked c -> games_ranked (delete k c).
Proof.
  intros Hc k' e l Hk. apply lookup_delete_Some in Hk as [_ Hk].
  by apply (Hc k' e l).
Qed.

Lemma games_ranked_get (now : Z) (k : jsstring) (c : Cache) :
  games_ranked c ->
  games_ranked (snd (cache_get now k c)) /\
  match fst (cache_get now k c) with
  | Some (CGames l) =>
      exists queryLower results,
        k = js "search_" ++ queryLower /\ l = rank_results queryLower results
  | _ => True
  end.
Proof.
  intros Hc. unfold cache_get.
  destruct (c !! k) as [e|] eqn:Hk; [| done].
  destruct (expired now e); simpl.
  - split; [by apply games_ranked_delete | done].
  - split; [done |]. destruct (e_v e) as [v|l] eqn:Hv; [done |].
    by apply (Hc k e l).
Qed.

Lemma games_ranked_set_json (now : Z) (k : jsstring) (v : JsVal)
    (ttl : option Z) (c : Cache) :
  games_ranked c -> games_ranked (cache_set now k (CJson v) ttl c).
Proof.
  intros Hc k' e l Hk He. unfold cache_set in Hk.
  apply lookup_insert_Some in Hk as [[_ <-] | [_ Hk]]; [done |].
  by apply (Hc k' e l).
Qed.

Lemma games_ranked_set_games (now : Z) (queryLower : jsstring)
    (results : list FuseResult) (ttl : option Z) (c : Cache) :
  games_ranked c ->
  games_ranked
    (cache_set now (js "search_" ++ queryLower)
       (CGames (rank_results queryLower results)) ttl c).
Proof.
  intros Hc k' e l' Hk He. unfold cache_set in Hk.
  apply lookup_insert_Some in Hk as [[<- <-] | [_ Hk]].
  - simpl in He. injection He as <-. by exists queryLower, results.
  - by apply (Hc k' e l').
Qed.

Lemma initAppList_cache `{CaseMapping} (io : LoadIO) (st : Server) :
  cache (snd (initAppList io st)) = cache st.
Proof.
  unfold initAppList, snapshot_path, fetch_path.
  destruct (load_from (io_read io)); [done |].
  destruct (load_from (io_fetch io)); [| done].
  by destruct (io_write io).
Qed.

Lemma getAppList_cache `{CaseMapping} (io : LoadIO) (st : Server) :
  cache (getAppList io st) = cache st.
Proof.
  unfold getAppList. destruct (steamApps st); [| done].
  apply initAppList_cache.
Qed.

(** An answer of /games/search is a page of a list that the filter,
    score, sort and slice block made for the lowercased query, whether
    it was computed for this request or read from the cache. *)
Lemma games_search_serves_ranked `{CaseMapping} `{FuzzyEngine} (now : Z)
    (io : LoadIO) (req : Query) (st : Server) :
  games_ranked (cache st) ->
  match fst (games_search now io req st) with
  | Json body =>
      exists results,
        body = search_page
                 (rank_results (toLowerCase (trim (default [] (q_q req))))
                    results)
                 (page_of (q_page req)) (perPage_of (q_perPage req))
  | Error _ _ => True
  end /\
  games_ranked (cache (snd (games_search now io req st))).
Proof.
  intros Hc. unfold games_search.
  destruct (trim (default [] (q_q req))) as [|x query]; [done |].
  pose proof (getAppList_cache io st) as Hcache.
  destruct (steamApps (getAppList io st)) as [|g apps];
    [simpl; by rewrite Hcache |].
  destruct (fuseInstance (getAppList io st)) as [fuse|];
    [| simpl; by rewrite Hcache].
  rewrite <- Hcache in Hc.
  destruct (games_ranked_get now (search_key (x :: query)) _ Hc)
    as [Hc1 Hhit].
  destruct (cache_get now (search_key (x :: query)) (cache (getAppList io st)))
    as [cached c1]. cbn [fst snd] in Hc1, Hhit.
  destruct cached as [[v|l]|]; cbn [fst snd cache set_cache].
  - destruct (js_truthy v); cbn [fst snd cache set_cache]; [done |].
    split; [by eexists | by apply games_ranked_set_games].
  - split; [| done].
    destruct Hhit as (queryLower & results & Hkey & ->).
    unfold search_key in Hkey. apply app_inv_head in Hkey as <-.
    by exists results.
  - split; [by eexists | by apply games_ranked_set_games].
Qed.

(** On a miss the answer is made from what the matcher returns now. *)
Lemma games_search_fresh `{CaseMapping} `{FuzzyEngine} (now : Z)
    (io : LoadIO) (req : Query) (st : Server) (fuse : Fuse) :
  steamApps st <> [] ->
  fuseInstance st = Some fuse ->
  trim (default [] (q_q req)) <> [] ->
  cache st !! search_key (trim (default [] (q_q req))) = None ->
  fst (games_search now io req st)
  = Json (search_page
            (rank_results (toLowerCase (trim (default [] (q_q req))))
               (fuse_search fuse (trim (default [] (q_q req))) maxResults))
            (page_of (q_page req)) (perPage_of (q_perPage req))).
Proof.
  intros Hloaded Hfuse Hquery Hmiss. unfold games_search, getAppList.
  destruct (trim (default [] (q_q req))) as [|x query]; [done |].
  destruct (steamApps st) as [|g apps] eqn:Hs; [done |].
  rewrite Hs, Hfuse. unfold cache_get. by rewrite Hmiss.
Qed.

Lemma fetchSteamGridAssets_ranked (now later : Z) (apiKey : option jsstring)
    (io : GridIO) (id : Z) (assetType : AssetType) (c : Cache) :
  games_ranked c ->
  games_ranked
    (snd (fetchSteamGridAssets now later apiKey io id assetType c)).
Proof.
  intros Hc. unfold fetchSteamGridAssets.
  destruct (games_ranked_get now (assets_key assetType id) c Hc) as [Hc1 _].
  destruct (cache_get now (assets_key assetType id) c) as [cached c1].
  simpl in Hc1.
  set (miss := match apiKey with None | Some [] => _ | Some _ => _ end).
  assert (games_ranked (snd miss)) as Hmiss.
  { unfold miss, assets_failed, empty_assets.
    destruct apiKey as [[|x k]|]; try done.
    destruct (grid_game io) as [searchResp | status]; simpl;
      [| by apply games_ranked_set_json].
    destruct (sr_success searchResp); simpl;
      [| by apply games_ranked_set_json].
    destruct (sr_id searchResp) as [gameId|]; simpl;
      [| by apply games_ranked_set_json].
    destruct (grid_assets io gameId); simpl;
      by apply games_ranked_set_json. }
  destruct cached as [v|]; [| done]. by destruct (truthy v).
Qed.

Lemma getCachedOrFetch_ranked (now later : Z) (key : jsstring)
    (o : Outcome JsVal) (c : Cache) :
  games_ranked c ->
  games_ranked (snd (getCachedOrFetch now later key (upstream o) c)).
Proof.
  intros Hc. unfold getCachedOrFetch, upstream.
  destruct (games_ranked_get now key c Hc) as [Hc1 _].
  destruct (cache_get now key c) as [cached c1]. simpl in Hc1.
  destruct cached as [v|]; [destruct (truthy v); [done |] |];
    destruct o; simpl; try done; by apply games_ranked_set_json.
Qed.

Lemma reachable_ranked `{CaseMapping} `{FuzzyEngine} (st : Server) :
  reachable st -> games_ranked (cache st).
Proof.
  induction 1 as [| st st' _ IH Hstep]; [apply games_ranked_empty |].
  destruct Hstep; simpl.
  - by apply games_search_serves_ranked.
  - unfold games_list.
    pose proof (getAppList_cache io st) as Hcache.
    destruct (steamApps (getAppList io st)); simpl; by rewrite Hcache.
  - by rewrite initAppList_cache.
  - by apply fetchSteamGridAssets_ranked.
  - by apply getCachedOrFetch_ranked.
Qed.

(** C9. In every state the server reaches from its start through its
    routes and catalog loads, and for every request, /games/search asks
    the matcher for at most 200 candidates, the list it computes has at
    most 100 games, and an answer reports a total of at most 100 and
    carries at most 100 games, whether the list is computed or read
    from the cache. *)
Theorem search_total_at_most_100 `{CaseMapping} `{FuzzyEngine} (now : Z)
    (io : LoadIO) (req : Query) (st : Server) :
  reachable st ->
  (forall (f : Fuse) (pattern : jsstring),
     (length (fuse_search f pattern maxResults) <= 200)%nat) /\
  (forall (queryLower : jsstring) (results : list FuseResult),
     (length (rank_results queryLower results) <= 100)%nat) /\
  match fst (games_search now io req st) with
  | Json body =>
      sb_total body <= 100 /\ (length (sb_games body) <= 100)%nat
  | Error _ _ => True
  end.
Proof.
  intros Hreach.
  split; [apply fuse_search_limit |].
  split; [apply rank_results_length |].
  destruct (games_search_serves_ranked now io req st
              (reachable_ranked st Hreach)) as [Hbody _].
  destruct (fst (games_search now io req st)) as [body|]; [| done].
  destruct Hbody as [results ->]. simpl.
  pose proof (rank_results_length
                (toLowerCase (trim (default [] (q_q req)))) results) as Hlen.
  split; [lia |].
  etransitivity; [apply slice_length | done].
Qed.

(** C3, as the code has it.  In every state the server reaches, for a
    query of at least two words, every game in an answer of
    /games/search contains every word of the lowercased query as a
    substring of its lowercased name [lowerName] (and not of
    [searchName], the form without symbols and with collapsed white
    space), whatever its fuzzy quality and whether the list was
    computed for this request or read from the cache. *)
Theorem multiword_filter_on_lowerName `{CaseMapping} `{FuzzyEngine} (now : Z)
    (io : LoadIO) (req : Query) (st : Server) (body : SearchBody)
    (a : ScoredApp) (w : jsstring) :
  reachable st ->
  (1 < length (queryWords_of
                 (toLowerCase (trim (default [] (q_q req))))))%nat ->
  fst (games_search now io req st) = Json body ->
  In a (sb_games body) ->
  In w (queryWords_of (toLowerCase (trim (default [] (q_q req))))) ->
  includes (lowerName (game a)) w = true.
Proof.
  intros Hreach Hmulti Hbody Ha Hw.
  destruct (games_search_serves_ranked now io req st
              (reachable_ranked st Hreach)) as [Hserved _].
  rewrite Hbody in Hserved. destruct Hserved as [results ->].
  simpl in Ha. apply slice_in in Ha.
  by eapply rank_results_multiword.
Qed.

Lemma demo_server_reachable :
  @reachable latin_case (answering many_dota) demo_server.
Proof.
  apply (@reach_step latin_case (answering many_dota) initial).
  - apply reach_initial.
  - change demo_server with (snd (@initAppList latin_case io_snapshot initial)).
    apply step_load.
Defined.

Lemma search_total_at_most_100_witness :
  match fst (@games_search latin_case (answering many_dota) 1000 io_down
               dota_query demo_server) with
  | Json body => sb_total body <= 100 /\ (length (sb_games body) <= 100)%nat
  | Error _ _ => True
  end.
Proof.
  apply (proj2 (proj2 (@search_total_at_most_100 latin_case
                         (answering many_dota) 1000 io_down dota_query
                         demo_server demo_server_reachable))).
Defined.

Example search_total_example :
  match fst (@games_search latin_case (answering many_dota) 1000 io_down
               dota_query demo_server) with
  | Json body => sb_total body = 100 /\ sb_totalPages body = 7
                 /\ length (sb_games body) = 16%nat
  | Error _ _ => False
  end.
Proof. vm_compute. repeat split. Qed.

Lemma half_life_server_reachable :
  @reachable latin_case (answering [half_life_hit])
    (activate [half_life_app] initial).
Proof.
  apply (@reach_step latin_case (answering [half_life_hit]) initial).
  - apply reach_initial.
  - change (activate [half_life_app] initial)
      with (snd (@initAppList latin_case io_half_life initial)).
    apply step_load.
Defined.

Lemma multiword_filter_on_lowerName_witness :
  includes (lowerName (game (scored (js "half: life") half_life_hit)))
    (js "life") = true.
Proof.
  apply (@multiword_filter_on_lowerName latin_case (answering [half_life_hit])
           1000 io_down half_life_query (activate [half_life_app] initial)
           half_life_body (scored (js "half: life") half_life_hit)
           (js "life") half_life_server_reachable).
  - vm_compute. lia.
  - vm_compute. reflexivity.
  - vm_compute. left. reflexivity.
  - vm_compute. right. left. reflexivity.
Defined.

(* ===================================================================== *)
(** * Further properties of the code                                      *)
(* ===================================================================== *)

(** ** prepareApps *)

Lemma prepareApps_some `{CaseMapping} (raw : list RawApp)
    (apps : list App) :
  prepareApps raw = Some apps ->
  length apps = length raw /\
  List.map appid apps = List.map raw_appid raw /\
  List.map (fun a => Some (name a)) apps = List.map raw_name raw /\
  Forall prepared apps.
Proof.
  revert apps. induction raw as [|g raw IH]; intros apps Hp; simpl in Hp.
  - injection Hp as <-. repeat split. constructor.
  - unfold prepare in Hp. destruct (raw_name g) as [n|] eqn:Hn; [| done].
    destruct (prepareApps raw) as [l|]; [| done]. injection Hp as <-.
    destruct (IH l eq_refl) as (Hlen & Hid & Hname & Hprep).
    simpl. rewrite Hlen, Hid, Hname, Hn. repeat split.
    constructor; [| done]. by split.
Qed.

(** X1. When [prepareApps] returns, the list has the length and the
    order of its input, every record keeps its id and its name, and its
    [lowerName] and [searchName] are the ones computed from that name. *)
Theorem prepareApps_preserves `{CaseMapping} (raw : list RawApp)
    (apps : list App) :
  prepareApps raw = Some apps ->
  length apps = length raw /\
  List.map appid apps = List.map raw_appid raw /\
  List.map (fun a => Some (name a)) apps = List.map raw_name raw /\
  Forall prepared apps.
Proof. apply prepareApps_some. Qed.

Lemma prepareApps_preserves_witness :
  List.map appid demo_apps = [570; 70; 220; 400; 620].
Proof.
  apply (proj1 (proj2 (@prepareApps_preserves latin_case demo_raw demo_apps
                         ltac:(reflexivity)))).
Defined.

(** X2. [prepareApps] throws exactly when some record of the list has
    no string for a name. *)
Theorem prepareApps_throws_iff `{CaseMapping} (raw : list RawApp) :
  prepareApps raw = None <-> exists g, In g raw /\ raw_name g = None.
Proof.
  induction raw as [|g raw IH]; simpl.
  - split; [done | intros (g & [] & _)].
  - unfold prepare. destruct (raw_name g) as [n|] eqn:Hn.
    + destruct (prepareApps raw) as [l|].
      * split; [done |]. intros (g' & [<- | Hin] & Hg'); [congruence |].
        assert (Some l = None) as Habs by (apply IH; by exists g').
        done.
      * split; [| done]. intros _.
        destruct (proj1 IH eq_refl) as (g' & Hin & Hg').
        exists g'. split; [by right | done].
    + split; [| done]. intros _. exists g. split; [by left | done].
Qed.

(** ** The normal form of searchName *)

Lemma spaced_weaken (s : jsstring) :
  spaced true s = true -> spaced false s = true.
Proof.
  destruct s as [|c s]; [done |]. simpl. by destruct (is_ws c).
Qed.

Lemma spaced_collapse (in_ws : bool) (s : jsstring) :
  spaced in_ws (collapse_ws in_ws s) = true.
Proof.
  revert in_ws. induction s as [|c s IH]; intros in_ws; [done |]. simpl.
  destruct (is_ws c) eqn:Hc.
  - destruct in_ws; [apply IH |].
    simpl. change (is_ws space) with true. simpl. apply IH.
  - simpl. rewrite Hc. apply IH.
Qed.

Lemma spaced_suffix (b : bool) (a t : jsstring) :
  spaced b (a ++ t) = true -> spaced false t = true.
Proof.
  revert b. induction a as [|c a IH]; intros b; simpl.
  - destruct b; [apply spaced_weaken | done].
  - destruct (is_ws c); [| apply IH].
    rewrite !andb_true_iff. intros [_ Hs]. by apply IH in Hs.
Qed.

Lemma spaced_prefix (b : bool) (t q : jsstring) :
  spaced b (t ++ q) = true -> spaced b t = true.
Proof.
  revert b. induction t as [|c t IH]; intros b; [done |]. simpl.
  destruct (is_ws c); [| apply IH].
  rewrite !andb_true_iff. intros [Hc Hs]. split; [done | by apply IH in Hs].
Qed.

Lemma spaced_lookup (b : bool) (s : jsstring) (i : nat) (c : N) :
  spaced b s = true -> s !! i = Some c -> is_ws c = true ->
  c = space /\ forall d, s !! S i = Some d -> is_ws d = false.
Proof.
  revert b i. induction s as [|x s IH]; intros b i Hs Hi Hc; [done |].
  destruct i as [|i]; simpl in Hi.
  - injection Hi as ->. simpl in Hs. rewrite Hc in Hs.
    rewrite !andb_true_iff in Hs. destruct Hs as [[_ Heq] Hs].
    apply N.eqb_eq in Heq. split; [done |].
    intros d Hd. destruct s as [|y s]; [done |]. simpl in Hd.
    injection Hd as ->. simpl in Hs. destruct (is_ws d); [done | done].
  - simpl in Hs. destruct (is_ws x).
    + rewrite !andb_true_iff in Hs. destruct Hs as [_ Hs].
      by eapply IH.
    + by eapply IH.
Qed.

Lemma trimStart_suffix (s : jsstring) : exists a, s = a ++ trimStart s.
Proof.
  induction s as [|c s [a IH]]; [by exists [] |]. simpl.
  destruct (is_ws c); [| by exists []].
  exists (c :: a). simpl. by rewrite <- IH.
Qed.

Lemma trimStart_head (s : jsstring) (c : N) :
  trimStart s !! 0%nat = Some c -> is_ws c = false.
Proof.
  induction s as [|x s IH]; [done |]. simpl.
  destruct (is_ws x) eqn:Hx; [done |]. simpl. by intros [= <-].
Qed.

Lemma trim_prefix (s : jsstring) : exists b, trimStart s = trim s ++ b.
Proof.
  unfold trim. destruct (trimStart_suffix (rev (trimStart s))) as [a Ha].
  exists (rev a). rewrite <- rev_app_distr, <- Ha. by rewrite rev_involutive.
Qed.

Lemma trim_infix (s : jsstring) : exists a b, s = a ++ trim s ++ b.
Proof.
  destruct (trimStart_suffix s) as [a Ha], (trim_prefix s) as [b Hb].
  exists a, b. by rewrite <- Hb.
Qed.

Lemma rev_lookup {A} (l : list A) (i : nat) :
  (i < length l)%nat -> rev l !! i = l !! (length l - S i)%nat.
Proof. intros Hi. rewrite rev_alt. by apply (reverse_lookup l i). Qed.

Lemma trim_ends (s : jsstring) (i : nat) (c : N) :
  trim s !! i = Some c -> is_ws c = true ->
  (0 < i)%nat /\ (S i < length (trim s))%nat.
Proof.
  intros Hi Hc. split.
  - destruct i as [|i]; [| lia].
    destruct (trim_prefix s) as [b Hb].
    assert (trimStart s !! 0%nat = Some c) as H0
      by (rewrite Hb; by apply lookup_app_l_Some).
    apply trimStart_head in H0. congruence.
  - pose proof (lookup_lt_Some _ _ _ Hi) as Hlt.
    destruct (decide (S i = length (trim s))) as [Hlast |]; [| lia].
    unfold trim in *. rewrite length_rev in Hlast.
    rewrite rev_lookup in Hi by (rewrite length_rev in Hlt; lia).
    replace (length (trimStart (rev (trimStart s))) - S i)%nat with 0%nat
      in Hi by lia.
    apply trimStart_head in Hi. congruence.
Qed.

Lemma strip_no_symbol (u : jsstring) :
  Forall (fun c => is_symbol c = false) (strip_symbols u).
Proof.
  apply Forall_forall. intros x Hx.
  apply list_elem_of_In, filter_In in Hx as [_ Hx].
  by apply negb_true_iff in Hx.
Qed.

Lemma collapse_no_symbol (b : bool) (w : jsstring) (c : N) :
  Forall (fun c => is_symbol c = false) w ->
  In c (collapse_ws b w) -> is_symbol c = false.
Proof.
  intros Hall. revert b.
  induction Hall as [|x w Hx Hall IH]; intros b; [done |]. simpl.
  destruct (is_ws x); [destruct b |]; simpl.
  - apply IH.
  - intros [<- | Hin]; [done | by eapply IH].
  - intros [<- | Hin]; [done | by eapply IH].
Qed.

Lemma normal_form (u : jsstring) (i : nat) (c : N) :
  trim (collapse_ws false (strip_symbols u)) !! i = Some c ->
  is_symbol c = false /\
  (is_ws c = true ->
   c = space /\ (0 < i)%nat /\
   (S i < length (trim (collapse_ws false (strip_symbols u))))%nat /\
   forall d, trim (collapse_ws false (strip_symbols u)) !! S i = Some d ->
             is_ws d = false).
Proof.
  set (v := collapse_ws false (strip_symbols u)).
  intros Hi.
  destruct (trim_infix v) as (a & b & Hv).
  assert (spaced false (trim v) = true) as Hsp.
  { pose proof (spaced_collapse false (strip_symbols u)) as Hs.
    fold v in Hs. rewrite Hv in Hs.
    apply spaced_suffix in Hs. by apply spaced_prefix in Hs. }
  split.
  - assert (In c v) as Hin.
    { rewrite Hv. apply in_or_app. right. apply in_or_app. left.
      apply list_elem_of_In. by eapply list_elem_of_lookup_2. }
    unfold v in Hin. apply (collapse_no_symbol false _ _ (strip_no_symbol u) Hin).
  - intros Hc.
    destruct (spaced_lookup _ _ _ _ Hsp Hi Hc) as [Hspace Hnext].
    destruct (trim_ends _ _ _ Hi Hc) as [Hpos Hend].
    done.
Qed.

(** X3. The [searchName] of a prepared record holds none of the symbols
    ®, ™, © and colon, and every white-space unit in it is a single
    space that stands strictly inside the string: not first, not last,
    and followed by a unit that is not white space. *)
Theorem searchName_normal_form `{CaseMapping} (raw : list RawApp)
    (apps : list App) (a : App) (i : nat) (c : N) :
  prepareApps raw = Some apps -> In a apps ->
  searchName a !! i = Some c ->
  is_symbol c = false /\
  (is_ws c = true ->
   c = space /\ (0 < i)%nat /\ (S i < length (searchName a))%nat /\
   forall d, searchName a !! S i = Some d -> is_ws d = false).
Proof.
  intros Hp Hin Hi.
  destruct (prepareApps_some raw apps Hp) as (_ & _ & _ & Hall).
  rewrite Forall_forall in Hall.
  destruct (Hall a (proj2 (list_elem_of_In _ _) Hin)) as [_ Hsn].
  rewrite Hsn in *. by apply normal_form.
Qed.

Lemma searchName_normal_form_witness :
  is_symbol 32 = false /\
  (is_ws 32 = true ->
   32%N = space /\ (0 < 4)%nat /\ (5 < length (searchName half_life_app))%nat /\
   forall d, searchName half_life_app !! 5%nat = Some d -> is_ws d = false).
Proof.
  apply (@searchName_normal_form latin_case [raw 70 "Half: Life"]
           [half_life_app] half_life_app 4 32%N).
  - reflexivity.
  - left. reflexivity.
  - reflexivity.
Defined.

(** ** The words of a query *)

Lemma split_ws_go_no_ws (s cur : jsstring) (in_ws : bool) (w : jsstring) :
  Forall (fun c => is_ws c = false) cur ->
  In w (split_ws_go cur in_ws s) ->
  Forall (fun c => is_ws c = false) w.
Proof.
  revert cur in_ws. induction s as [|c s IH]; intros cur in_ws Hcur Hin;
    simpl in Hin.
  - destruct Hin as [<- | []]. apply Forall_forall. intros x Hx.
    rewrite Forall_forall in Hcur. apply Hcur.
    apply list_elem_of_In. apply in_rev. by apply list_elem_of_In.
  - destruct (is_ws c) eqn:Hc.
    + destruct in_ws; [by eapply IH |].
      destruct Hin as [<- | Hin]; [| by eapply (IH [])].
      apply Forall_forall. intros x Hx.
      rewrite Forall_forall in Hcur. apply Hcur.
      apply list_elem_of_In. apply in_rev. by apply list_elem_of_In.
    + eapply (IH (c :: cur)); [| done]. by constructor.
Qed.

Lemma split_ws_go_concat (s cur : jsstring) (in_ws : bool) :
  concat (split_ws_go cur in_ws s)
  = rev cur ++ List.filter (fun c => negb (is_ws c)) s.
Proof.
  revert cur in_ws. induction s as [|c s IH]; intros cur in_ws; simpl.
  - by rewrite !app_nil_r.
  - destruct (is_ws c); simpl.
    + destruct in_ws; [apply IH |]. simpl. by rewrite IH.
    + rewrite IH. simpl. by rewrite <- app_assoc.
Qed.

Lemma concat_nonempty (l : list jsstring) :
  concat (List.filter (fun w => (0 <? length w)%nat) l) = concat l.
Proof.
  induction l as [|w l IH]; [done |]. simpl.
  destruct w as [|c w]; simpl; [done |]. by rewrite IH.
Qed.

(** X4. The words of a query are not empty, hold no white space, occur
    in the query, and put together they are the query without its
    white space: the split loses nothing else. *)
Theorem queryWords_spec (queryLower : jsstring) :
  (forall w, In w (queryWords_of queryLower) ->
     w <> [] /\ Forall (fun c => is_ws c = false) w
     /\ includes queryLower w = true) /\
  concat (queryWords_of queryLower)
  = List.filter (fun c => negb (is_ws c)) queryLower.
Proof.
  split.
  - intros w Hw. split; [| split].
    + unfold queryWords_of in Hw. apply filter_In in Hw as [_ Hlen].
      by destruct w.
    + unfold queryWords_of, split_ws in Hw. apply filter_In in Hw as [Hw _].
      by apply (split_ws_go_no_ws queryLower [] false).
    + by apply queryWords_are_parts.
  - unfold queryWords_of, split_ws.
    by rewrite concat_nonempty, split_ws_go_concat.
Qed.

(** ** The order and the content of the result list *)

(** X5. The result list is in descending order of relevance score. *)
Theorem rank_results_descending (queryLower : jsstring)
    (results : list FuseResult) (i j : nat) (a b : ScoredApp) :
  rank_results queryLower results !! i = Some a ->
  rank_results queryLower results !! j = Some b ->
  (i < j)%nat ->
  (relevanceScore b <= relevanceScore a)%Q.
Proof.
  unfold rank_results. rewrite !lookup_take_Some.
  intros [Hi _] [Hj _] Hij.
  exact (sorted_lookup _ i j a b (sort_by_relevance_sorted _) Hi Hj Hij).
Qed.

Lemma rank_results_descending_witness :
  (relevanceScore (scored (js "dota") half_life_hit)
   <= relevanceScore (scored (js "dota") (dota_hit 570 (1 # 10))))%Q.
Proof.
  apply (rank_results_descending (js "dota")
           [half_life_hit; dota_hit 570 (1 # 10)] 0 1); [reflexivity.. | lia].
Defined.

Lemma insert_sorted_ties (s : Q) (a : ScoredApp) (l : list ScoredApp) :
  List.filter (score_is s) (insert_sorted a l)
  = List.filter (score_is s) (a :: l).
Proof.
  induction l as [|b l IH]; [done |]. cbn [insert_sorted].
  destruct (Qle_bool (relevanceScore b - relevanceScore a) 0) eqn:E; [done |].
  cbn [List.filter] in *. rewrite IH.
  destruct (score_is s b) eqn:Hb; [| done].
  destruct (score_is s a) eqn:Ha; [| done].
  unfold score_is in Ha, Hb. apply Qeq_bool_iff in Ha, Hb.
  assert (Qle_bool (relevanceScore b - relevanceScore a) 0 = true) as Hle
    by (apply Qle_bool_iff; lra).
  congruence.
Qed.

Lemma sort_by_relevance_ties (s : Q) (l : list ScoredApp) :
  List.filter (score_is s) (sort_by_relevance l) = List.filter (score_is s) l.
Proof.
  induction l as [|a l IH]; [done |]. simpl.
  rewrite insert_sorted_ties. simpl. by rewrite IH.
Qed.

(** X6. The sort is stable: the games of one relevance score stand in
    the result list in the order of their candidates, the cut to 100
    entries dropping only the last of them. *)
Theorem rank_results_stable (queryLower : jsstring)
    (results : list FuseResult) (s : Q) :
  exists rest,
    List.filter (score_is s)
      (List.map (scored queryLower)
         (List.filter (keep (queryWords_of queryLower)) results))
    = List.filter (score_is s) (rank_results queryLower results) ++ rest.
Proof.
  unfold rank_results.
  set (kept := List.map (scored queryLower) _).
  exists (List.filter (score_is s) (drop 100 (sort_by_relevance kept))).
  rewrite <- List.filter_app, take_drop. by rewrite sort_by_relevance_ties.
Qed.

(** X7. Every game of the result list is the item of a candidate whose
    quality is not 0 and at most 0.4, and its relevance score is the
    one [calculateSimpleScore] gives for that quality. *)
Theorem rank_results_within_cutoff (queryLower : jsstring)
    (results : list FuseResult) (a : ScoredApp) :
  In a (rank_results queryLower results) ->
  exists r,
    In r results /\ game a = item r /\
    ~ (score r == 0)%Q /\ (score r <= 2 # 5)%Q /\
    relevanceScore a
    = calculateSimpleScore (lowerName (item r)) queryLower (score r).
Proof.
  intros Ha. apply rank_results_in in Ha as (r & Hr & Hkeep & ->).
  exists r. split; [done |]. split; [done |].
  unfold keep in Hkeep. unfold scored, num_or in *. simpl.
  destruct (Qeq_bool (score r) 0) eqn:E0.
  - exfalso. by vm_compute in Hkeep.
  - destruct (Qle_bool (score r) (2 # 5)) eqn:Hcut; [| done].
    split; [| split; [by apply Qle_bool_iff | done]].
    intros Hz. apply Qeq_bool_iff in Hz. congruence.
Qed.

Lemma rank_results_within_cutoff_witness :
  exists r,
    In r [dota_hit 570 (1 # 10)] /\
    game (scored (js "dota") (dota_hit 570 (1 # 10))) = item r /\
    ~ (score r == 0)%Q /\ (score r <= 2 # 5)%Q /\
    relevanceScore (scored (js "dota") (dota_hit 570 (1 # 10)))
    = calculateSimpleScore (lowerName (item r)) (js "dota") (score r).
Proof.
  apply (rank_results_within_cutoff (js "dota") [dota_hit 570 (1 # 10)]).
  left. reflexivity.
Defined.

(** X8. When at most 100 candidates pass the filter, the result list is
    a rearrangement of all of them with their scores: none is lost and
    none is added. *)
Theorem rank_results_complete (queryLower : jsstring)
    (results : list FuseResult) :
  (length (List.filter (keep (queryWords_of queryLower)) results) <= 100)%nat ->
  Permutation (rank_results queryLower results)
    (List.map (scored queryLower)
       (List.filter (keep (queryWords_of queryLower)) results)).
Proof.
  intros Hlen. unfold rank_results. rewrite take_ge.
  - apply sort_by_relevance_perm.
  - rewrite (Permutation_length (sort_by_relevance_perm _)), length_map. lia.
Qed.

Lemma rank_results_complete_witness :
  Permutation
    (rank_results (js "dota") [half_life_hit; dota_hit 570 (1 # 10)])
    (List.map (scored (js "dota"))
       (List.filter (keep (queryWords_of (js "dota")))
          [half_life_hit; dota_hit 570 (1 # 10)])).
Proof.
  apply (rank_results_complete (js "dota")
           [half_life_hit; dota_hit 570 (1 # 10)]).
  vm_compute. lia.
Defined.

(** ** The score as a function of quality, of containment and of length *)

Lemma startsWith_includes (name query : jsstring) :
  startsWith name query = true -> includes name query = true.
Proof.
  rewrite startsWith_spec, includes_spec. intros [t ->]. by exists [], t.
Qed.

Lemma whole_word_includes (name query : jsstring) :
  includes name (space :: query ++ [space]) || endsWith name (space :: query)
  = true ->
  includes name query = true.
Proof.
  rewrite orb_true_iff, !includes_spec, endsWith_spec.
  intros [(a & b & ->) | [a ->]].
  - exists (a ++ [space]), (space :: b).
    rewrite <- !app_assoc. simpl. by rewrite <- app_assoc.
  - exists (a ++ [space]), []. by rewrite app_nil_r, <- app_assoc.
Qed.

Lemma score_without_occurrence (name query : jsstring) (q : Q) :
  includes name query = false ->
  calculateSimpleScore name query q
  = if Z.of_nat (length name) <? 30
    then ((1 - q) * 100 + inject_Z ((30 - Z.of_nat (length name)) * 5))%Q
    else ((1 - q) * 100)%Q.
Proof.
  intros Hno. unfold calculateSimpleScore.
  destruct (bool_decide (name = query)) eqn:He.
  { apply bool_decide_eq_true in He as ->. by rewrite includes_refl in Hno. }
  destruct (startsWith name query) eqn:Hp.
  { apply startsWith_includes in Hp. congruence. }
  destruct (includes name (space :: query ++ [space])
            || endsWith name (space :: query)) eqn:Hw.
  { apply whole_word_includes in Hw. congruence. }
  by rewrite Hno.
Qed.

(** X9. For fixed name and query the score does not grow when the fuzzy
    quality gets worse: a larger [fuseScore] never gives a larger
    relevance score. *)
Theorem calculateSimpleScore_antitone (name query : jsstring) (q1 q2 : Q) :
  (q1 <= q2)%Q ->
  (calculateSimpleScore name query q2 <= calculateSimpleScore name query q1)%Q.
Proof.
  intros Hq. unfold calculateSimpleScore.
  destruct (bool_decide (name = query)); [lra |].
  destruct (startsWith name query); [lra |].
  destruct (includes name (space :: query ++ [space])
            || endsWith name (space :: query)); [lra |].
  destruct (includes name query); [lra |].
  destruct (Z.of_nat (length name) <? 30); lra.
Qed.

Lemma calculateSimpleScore_antitone_witness :
  (calculateSimpleScore (js "dota 2") (js "dota") (3 # 10)
   <= calculateSimpleScore (js "dota 2") (js "dota") (1 # 10))%Q.
Proof.
  apply (calculateSimpleScore_antitone (js "dota 2") (js "dota")
           (1 # 10) (3 # 10)).
  vm_compute. discriminate.
Defined.

(** X10. For a quality between 0 and 1, the score is at least 10000
    exactly when the query occurs in the name: every test of the
    cascade above the fuzzy branch implies an occurrence. *)
Theorem score_tells_occurrence (name query : jsstring) (q : Q) :
  (0 <= q)%Q -> (q <= 1)%Q ->
  (includes name query = true <->
   (10000 <= calculateSimpleScore name query q)%Q).
Proof.
  intros Hq0 Hq1. split.
  - intros Hin. unfold calculateSimpleScore.
    destruct (bool_decide (name = query)); [lra |].
    destruct (startsWith name query); [lra |].
    destruct (includes name (space :: query ++ [space])
              || endsWith name (space :: query)); [lra |].
    rewrite Hin. lra.
  - intros Hscore.
    destruct (includes name query) eqn:Hin; [done |]. exfalso.
    rewrite (score_without_occurrence _ _ _ Hin) in Hscore.
    destruct (Z.of_nat (length name) <? 30) eqn:Hlen; [| lra].
    apply Z.ltb_lt in Hlen.
    set (b := (30 - Z.of_nat (length name)) * 5) in *.
    assert (b <= 150) as Hb by (unfold b; lia).
    rewrite Zle_Qle in Hb. change (inject_Z 150) with 150%Q in Hb. lra.
Qed.

Lemma score_tells_occurrence_witness :
  includes (js "my dota") (js "dota") = true <->
  (10000 <= calculateSimpleScore (js "my dota") (js "dota") (1 # 2))%Q.
Proof.
  apply (score_tells_occurrence (js "my dota") (js "dota") (1 # 2));
    vm_compute; discriminate.
Defined.

(** X11. Of two names that do not contain the query, at equal fuzzy
    quality the shorter one never scores less. *)
Theorem shorter_name_scores_higher (n1 n2 query : jsstring) (q : Q) :
  includes n1 query = false -> includes n2 query = false ->
  (length n1 <= length n2)%nat ->
  (calculateSimpleScore n2 query q <= calculateSimpleScore n1 query q)%Q.
Proof.
  intros H1 H2 Hlen.
  rewrite (score_without_occurrence _ _ _ H1).
  rewrite (score_without_occurrence _ _ _ H2).
  destruct (Z.of_nat (length n1) <? 30) eqn:E1;
    destruct (Z.of_nat (length n2) <? 30) eqn:E2;
    try apply Z.ltb_lt in E1; try apply Z.ltb_lt in E2;
    try apply Z.ltb_ge in E1; try apply Z.ltb_ge in E2.
  - assert ((30 - Z.of_nat (length n2)) * 5 <= (30 - Z.of_nat (length n1)) * 5)
      as Hb by lia.
    rewrite Zle_Qle in Hb. lra.
  - assert (0 <= (30 - Z.of_nat (length n1)) * 5) as Hb by lia.
    rewrite Zle_Qle in Hb. change (inject_Z 0) with 0%Q in Hb. lra.
  - lia.
  - lra.
Qed.

Lemma shorter_name_scores_higher_witness :
  (calculateSimpleScore (js "portal 2") (js "dota") (1 # 5)
   <= calculateSimpleScore (js "data") (js "dota") (1 # 5))%Q.
Proof.
  apply (shorter_name_scores_higher (js "data") (js "portal 2") (js "dota")
           (1 # 5)); [reflexivity | reflexivity | vm_compute; lia].
Defined.

(** ** The cache *)

Lemma wrap_positive (now s : Z) (v : CacheVal) (ttl : option Z) :
  default stdTTL ttl = s -> 0 < s ->
  wrap now v ttl = {| e_t := now + s * 1000; e_v := v |}.
Proof.
  intros Hs Hpos. unfold wrap. destruct ttl as [s'|]; simpl in Hs.
  - subst s'. destruct (s =? 0) eqn:E; [apply Z.eqb_eq in E; lia | done].
  - by subst s.
Qed.

(** X12. An entry written at [now] with a lifetime of [s] seconds (the
    default 18000 when none is given) is read back at any time up to
    and including [now + s] seconds, and later than that the read is a
    miss that removes the entry. *)
Theorem cache_entry_lifetime (now t s : Z) (key : jsstring) (v : CacheVal)
    (ttl : option Z) (c : Cache) :
  0 <= now -> default stdTTL ttl = s -> 0 < s ->
  (t <= now + s * 1000 ->
   cache_get t key (cache_set now key v ttl c)
   = (Some v, cache_set now key v ttl c)) /\
  (now + s * 1000 < t ->
   cache_get t key (cache_set now key v ttl c) = (None, delete key c)).
Proof.
  intros Hnow Hs Hpos. unfold cache_get, cache_set.
  rewrite lookup_insert_eq, (wrap_positive now s v ttl Hs Hpos).
  unfold expired. simpl.
  destruct (now + s * 1000 =? 0) eqn:E0; [apply Z.eqb_eq in E0; lia |].
  simpl. split; intros Ht.
  - destruct (now + s * 1000 <? t) eqn:E; [apply Z.ltb_lt in E; lia | done].
  - destruct (now + s * 1000 <? t) eqn:E; [| apply Z.ltb_ge in E; lia].
    by rewrite delete_insert_eq.
Qed.

Lemma cache_entry_lifetime_witness :
  cache_get 301000 (js "search_dota")
    (cache_set 1000 (js "search_dota") (CGames []) (Some 300) ∅)
  = (Some (CGames []),
     cache_set 1000 (js "search_dota") (CGames []) (Some 300) ∅).
Proof.
  apply (proj1 (cache_entry_lifetime 1000 301000 300 (js "search_dota")
                  (CGames []) (Some 300) ∅ ltac:(lia) ltac:(reflexivity)
                  ltac:(lia))).
  lia.
Defined.

(** X13. An entry written with a ttl of 0 is read back at every later
    time: it never expires. *)
Theorem cache_ttl_zero_never_expires (now t : Z) (key : jsstring)
    (v : CacheVal) (c : Cache) :
  cache_get t key (cache_set now key v (Some 0) c)
  = (Some v, cache_set now key v (Some 0) c).
Proof.
  unfold cache_get, cache_set. by rewrite lookup_insert_eq.
Qed.



(** ** getCachedOrFetch, twice *)

Lemma cache_get_after_get (now t : Z) (key : jsstring) (c : Cache) :
  (forall v, live now key c v -> truthy v = false) ->
  forall v, live t key (snd (cache_get now key c)) v -> truthy v = false.
Proof.
  intros Hno v (e & Hk & _ & <-). apply Hno.
  unfold cache_get in Hk.
  destruct (c !! key) as [e'|] eqn:Hc; [| simpl in Hk; congruence].
  destruct (expired now e') eqn:Hexp; simpl in Hk.
  - by rewrite lookup_delete_eq in Hk.
  - exists e'. rewrite Hc in Hk. injection Hk as ->. done.
Qed.

Lemma getCachedOrFetch_miss (now later : Z) (key : jsstring)
    (fetchFn : Cache -> Outcome CacheVal * Cache) (c : Cache) :
  (forall v, live now key c v -> truthy v = false) ->
  getCachedOrFetch now later key fetchFn c =
    match fetchFn (snd (cache_get now key c)) with
    | (Fulfilled data, c2) =>
        (Fulfilled data, cache_set later key data None c2)
    | (Rejected e, c2) => (Rejected e, c2)
    end.
Proof.
  intros Hno. apply cache_get_not_live in Hno. unfold getCachedOrFetch.
  destruct (cache_get now key c) as [[v|] c1]; simpl in *; [| done].
  by rewrite Hno.
Qed.





(** X16. A rejected request stores nothing, so with no usable entry for
    the key the failure is the outcome and the next call asks upstream
    again: when that request is fulfilled its body is the result. *)
Theorem getCachedOrFetch_retries_after_failure (now later t later' : Z)
    (key : jsstring) (e : option Z) (body : JsVal) (c : Cache) :
  (forall v, live now key c v -> truthy v = false) ->
  getCachedOrFetch now later key (upstream (Rejected e)) c
  = (Rejected e, snd (cache_get now key c)) /\
  fst (getCachedOrFetch t later' key (upstream (Fulfilled body))
         (snd (getCachedOrFetch now later key (upstream (Rejected e)) c)))
  = Fulfilled (CJson body).
Proof.
  intros Hno.
  assert (getCachedOrFetch now later key (upstream (Rejected e)) c
          = (Rejected e, snd (cache_get now key c))) as Hfirst
    by (by rewrite (getCachedOrFetch_miss _ _ _ _ _ Hno)).
  split; [done |]. rewrite Hfirst. simpl.
  by rewrite (getCachedOrFetch_miss _ _ _ _ _
                (cache_get_after_get now t key c Hno)).
Qed.

Lemma getCachedOrFetch_retries_after_failure_witness :
  fst (getCachedOrFetch 2000 3000 (js "featuredCategories")
         (upstream (Fulfilled (JObj [])))
         (snd (getCachedOrFetch 0 1000 (js "featuredCategories")
                 (upstream (Rejected (Some 503))) ∅)))
  = Fulfilled (CJson (JObj [])).
Proof.
  apply (proj2 (getCachedOrFetch_retries_after_failure 0 1000 2000 3000
                  (js "featuredCategories") (Some 503) (JObj []) ∅
                  ltac:(intros v (e & He & _); by rewrite lookup_empty in He))).
Defined.

(** ** Item details *)




Lemma js_index_throws (body : JsVal) (id : option Z) :
  (exists e, js_index body id = Rejected e)
  <-> body = JNull \/ body = JUndefined.
Proof.
  split.
  - intros [e He]. destruct body; simpl in He; auto; try done;
      destruct id as [z|]; try done;
      match type of He with
      | context [if ?b then _ else _] => by destruct b
      end.
  - intros [-> | ->]; by eexists.
Qed.

(** X18. With no usable entry for the id in the cache, /games/:appid
    answers 500 exactly when the request to Steam is rejected or its
    body is [null] or [undefined]; nothing is stored then, the cache is
    as the read left it. *)
Theorem games_details_500 (now later : Z) (param : jsstring)
    (o : Outcome JsVal) (c : Cache) :
  (forall w, live now (appDetails_key (parseInt (Some param))) c w ->
             truthy w = false) ->
  (fst (games_details now later param o c)
   = Error 500 "Failed to fetch game details"
   <-> match o with
       | Rejected _ | Fulfilled JNull | Fulfilled JUndefined => True
       | Fulfilled _ => False
       end) /\
  (fst (games_details now later param o c)
   = Error 500 "Failed to fetch game details" ->
   snd (games_details now later param o c)
   = snd (cache_get now (appDetails_key (parseInt (Some param))) c)).
Proof.
  intros Hno. unfold games_details, fetchAppDetails.
  rewrite (getCachedOrFetch_miss now later _ _ c Hno).
  unfold details_fetch.
  destruct o as [body | e]; [| done].
  pose proof (js_index_throws body (parseInt (Some param))) as Hthrows.
  destruct (js_index body (parseInt (Some param))) as [v | e].
  - cbn [fst snd].
    assert (match body with
            | JNull | JUndefined => False
            | _ => True
            end) as Hbody.
    { destruct body; try done.
      - destruct (proj2 Hthrows (or_intror eq_refl)) as [? [=]].
      - destruct (proj2 Hthrows (or_introl eq_refl)) as [? [=]]. }
    destruct (has_success (CJson v));
      (split; [split; [by intros [=] | by destruct body] | by intros [=]]).
  - cbn [fst snd].
    destruct (proj1 Hthrows (ex_intro _ e eq_refl)) as [-> | ->];
      (split; [by split | done]).
Qed.

Lemma games_details_500_witness :
  snd (games_details 0 1000 (js "570") (Rejected (Some 429)) ∅)
  = snd (cache_get 0 (appDetails_key (parseInt (Some (js "570")))) ∅).
Proof.
  apply (proj2 (games_details_500 0 1000 (js "570") (Rejected (Some 429)) ∅
                  ltac:(intros w (e & He & _); by rewrite lookup_empty in He))).
  reflexivity.
Defined.

(** ** SteamGridDB assets, again *)

(** X19. Without an API key (none, or the empty string) a lookup never
    asks SteamGridDB and never writes to the cache: it returns the
    usable cached value if there is one and the empty list otherwise,
    and the cache is as the read left it. *)
Theorem fetchSteamGridAssets_without_key (now later : Z)
    (apiKey : option jsstring) (io : GridIO) (id : Z)
    (assetType : AssetType) (c : Cache) :
  apiKey = None \/ apiKey = Some [] ->
  fetchSteamGridAssets now later apiKey io id assetType c
  = (match fst (cache_get now (assets_key assetType id) c) with
     | Some v => if truthy v then v else empty_assets
     | None => empty_assets
     end,
     snd (cache_get now (assets_key assetType id) c)).
Proof.
  intros Hkey. unfold fetchSteamGridAssets.
  destruct (cache_get now (assets_key assetType id) c) as [cached c1].
  destruct Hkey as [-> | ->]; simpl;
    (destruct cached as [v|]; [by destruct (truthy v) | done]).
Qed.

Lemma fetchSteamGridAssets_without_key_witness :
  fetchSteamGridAssets 0 1000 None grid_ok 570 logos ∅ = (empty_assets, ∅).
Proof.
  pose proof (fetchSteamGridAssets_without_key 0 1000 None grid_ok 570 logos ∅
                (or_introl eq_refl)) as Hcode.
  exact Hcode.
Defined.

(** X21. A lookup that finds nothing usable in the cache and asks
    SteamGridDB leaves an entry that lives 86400 seconds when both
    requests are answered, the default 18000 seconds when the id lookup
    answers [success: false], 3600 seconds after an HTTP 404, and
    without expiry after any other failure. *)
Theorem assets_entry_lifetimes (now later : Z) (k : jsstring)
    (io : GridIO) (id : Z) (assetType : AssetType) (c : Cache) :
  0 <= later -> k <> [] ->
  c !! assets_key assetType id = None ->
  visible_lifetime later (assets_key assetType id)
    (snd (fetchSteamGridAssets now later (Some k) io id assetType c))
  = match grid_game io with
    | Rejected status =>
        if bool_decide (status = Some 404) then Some (Some 3600)
        else Some None
    | Fulfilled searchResp =>
        if negb (sr_success searchResp) then Some (Some 18000)
        else
          match sr_id searchResp with
          | None => Some None
          | Some gameId =>
              match grid_assets io gameId with
              | Rejected status =>
                  if bool_decide (status = Some 404) then Some (Some 3600)
                  else Some None
              | Fulfilled _ => Some (Some 86400)
              end
          end
    end.
Proof. apply fetchSteamGridAssets_lifetimes. Qed.

Lemma assets_entry_lifetimes_witness :
  visible_lifetime 2000 (assets_key heroes 570)
    (snd (fetchSteamGridAssets 1000 2000 api_key grid_ok 570 heroes ∅))
  = Some (Some 86400).
Proof.
  apply (assets_entry_lifetimes 1000 2000 (js "k") grid_ok 570
           heroes ∅); [lia | discriminate | reflexivity].
Defined.




(** ** The catalog and its index *)

(** X29. When both paths of [initAppList] throw, the function still
    returns, the ready flag is false and the cache is untouched; the
    catalog and the index are either both as they were (the request or
    the list failed) or both those of the complete new list (only the
    write of the snapshot failed): never a mix of old and new. *)
Theorem initAppList_failure_outcomes `{CaseMapping} (io : LoadIO)
    (st s1 s2 : Server) :
  snapshot_path io st = (Thrown, s1) ->
  fetch_path io s1 = (Thrown, s2) ->
  fst (initAppList io st) = Returned /\
  appListReady (snd (initAppList io st)) = false /\
  cache (snd (initAppList io st)) = cache st /\
  ((load_from (io_fetch io) = None /\
    steamApps (snd (initAppList io st)) = steamApps st /\
    fuseInstance (snd (initAppList io st)) = fuseInstance st) \/
   (exists apps,
      load_from (io_fetch io) = Some apps /\ io_write io = false /\
      steamApps (snd (initAppList io st)) = apps /\
      fuseInstance (snd (initAppList io st)) = Some (createFuseIndex apps))).
Proof.
  intros Hsnap Hfetch. split; [apply initAppList_returns |].
  by apply (initAppList_both_fail io st s1 s2).
Qed.

Lemma initAppList_failure_outcomes_witness :
  steamApps (snd (@initAppList latin_case io_down demo_server))
  = steamApps demo_server.
Proof.
  destruct (@initAppList_failure_outcomes latin_case io_down demo_server
              demo_server demo_server ltac:(reflexivity) ltac:(reflexivity))
    as (_ & _ & _ & [(_ & Hsame & _) | (apps & Habs & _)]).
  - exact Hsame.
  - discriminate Habs.
Defined.

Lemma activate_consistent `{CaseMapping} (raw : list RawApp) (apps : list App)
    (st : Server) :
  prepareApps raw = Some apps -> catalog_consistent (activate apps st).
Proof.
  intros Hp. destruct (prepareApps_some raw apps Hp) as (_ & _ & _ & Hall).
  by split.
Qed.

Lemma load_from_prepared `{CaseMapping} (p : option Payload) (apps : list App)
    (st : Server) :
  load_from p = Some apps -> catalog_consistent (activate apps st).
Proof.
  unfold load_from. destruct p as [[|raw]|]; try done.
  apply activate_consistent.
Qed.

Lemma set_ready_false_consistent `{CaseMapping} (st : Server) :
  catalog_consistent st -> catalog_consistent (set_ready false st).
Proof.
  intros [Hall Hidx]. split; [done |]. simpl.
  destruct (fuseInstance st); [done |]. by destruct Hidx.
Qed.

Lemma set_cache_consistent `{CaseMapping} (c : Cache) (st : Server) :
  catalog_consistent st -> catalog_consistent (set_cache c st).
Proof. by intros [Hall Hidx]. Qed.

Lemma initAppList_consistent `{CaseMapping} (io : LoadIO) (st : Server) :
  catalog_consistent st -> catalog_consistent (snd (initAppList io st)).
Proof.
  intros Hst. unfold initAppList, snapshot_path, fetch_path.
  destruct (load_from (io_read io)) as [apps|] eqn:Hread;
    [by eapply load_from_prepared |].
  destruct (load_from (io_fetch io)) as [apps|] eqn:Hfetch.
  - destruct (io_write io); simpl.
    + by eapply load_from_prepared.
    + apply set_ready_false_consistent. by eapply load_from_prepared.
  - simpl. by apply set_ready_false_consistent.
Qed.

Lemma getAppList_consistent `{CaseMapping} (io : LoadIO) (st : Server) :
  catalog_consistent st -> catalog_consistent (getAppList io st).
Proof.
  intros Hst. unfold getAppList. destruct (steamApps st); [| done].
  by apply initAppList_consistent.
Qed.

Lemma games_search_state `{CaseMapping} `{FuzzyEngine} (now : Z)
    (io : LoadIO) (req : Query) (st : Server) :
  snd (games_search now io req st) = st \/
  exists c, snd (games_search now io req st) = set_cache c (getAppList io st)
  \/ snd (games_search now io req st) = getAppList io st.
Proof.
  unfold games_search.
  destruct (trim (default [] (q_q req))); [by left |]. right.
  destruct (steamApps (getAppList io st)); [exists ∅; by right |].
  destruct (fuseInstance (getAppList io st)); [| exists ∅; by right].
  destruct (cache_get now _ _) as [[[v|cached]|] c1]; simpl.
  - destruct (js_truthy v); eexists; by left.
  - eexists; by left.
  - eexists; by left.
Qed.

Lemma reachable_consistent `{CaseMapping} `{FuzzyEngine} (st : Server) :
  reachable st -> catalog_consistent st.
Proof.
  induction 1 as [| st st' _ IH Hstep].
  - split; [constructor | done].
  - destruct Hstep.
    + destruct (games_search_state now io req st) as [-> | [c [-> | ->]]];
        [done | |].
      * by apply set_cache_consistent, getAppList_consistent.
      * by apply getAppList_consistent.
    + unfold games_list.
      pose proof (getAppList_consistent io st IH).
      by destruct (steamApps (getAppList io st)).
    + by apply initAppList_consistent.
    + by apply set_cache_consistent.
    + by apply set_cache_consistent.
Qed.

(** X22. In every state the server reaches, the records of the catalog
    carry the [lowerName] and [searchName] computed from their names,
    the search index is the one built from exactly the active catalog,
    and a catalog that is not empty has its index; a ready flag that is
    set implies an index. *)
Theorem catalog_and_index_agree `{CaseMapping} `{FuzzyEngine} (st : Server) :
  reachable st ->
  Forall prepared (steamApps st) /\
  (forall f, fuseInstance st = Some f -> fuse_docs f = steamApps st) /\
  (steamApps st <> [] ->
   fuseInstance st = Some (createFuseIndex (steamApps st))) /\
  (appListReady st = true ->
   fuseInstance st = Some (createFuseIndex (steamApps st))).
Proof.
  intros Hreach. destruct (reachable_consistent st Hreach) as [Hall Hidx].
  split; [done |].
  destruct (fuseInstance st) as [[docs]|]; simpl in Hidx.
  - subst docs. repeat split; try done. by intros f [= <-].
  - destruct Hidx as [Hnil Hready]. split; [done |]. split; [done |].
    congruence.
Qed.

Lemma catalog_and_index_agree_witness :
  Forall (@prepared latin_case) (steamApps demo_server) /\
  (forall f, fuseInstance demo_server = Some f ->
             fuse_docs f = steamApps demo_server) /\
  (steamApps demo_server <> [] ->
   fuseInstance demo_server = Some (createFuseIndex (steamApps demo_server))) /\
  (appListReady demo_server = true ->
   fuseInstance demo_server = Some (createFuseIndex (steamApps demo_server))).
Proof.
  apply (@catalog_and_index_agree latin_case (answering many_dota)
           demo_server demo_server_reachable).
Defined.

(** ** The answers of the routes *)

(** X23. In every state the server reaches, /games/search answers 400
    exactly when the query is empty after trimming, and 503 exactly
    when the query is not empty and the catalog is still empty after
    the lazy load: a loaded catalog is never answered with 503. *)
Theorem games_search_status `{CaseMapping} `{FuzzyEngine} (now : Z)
    (io : LoadIO) (req : Query) (st : Server) :
  reachable st ->
  ((exists msg, fst (games_search now io req st) = Error 400 msg)
   <-> trim (default [] (q_q req)) = []) /\
  ((exists msg, fst (games_search now io req st) = Error 503 msg)
   <-> trim (default [] (q_q req)) <> []
       /\ steamApps (getAppList io st) = []).
Proof.
  intros Hreach.
  pose proof (getAppList_consistent io st (reachable_consistent st Hreach))
    as [_ Hidx].
  unfold games_search.
  destruct (trim (default [] (q_q req))) as [|x query].
  { split; [split; [done | by eexists] |]. split; [by intros [msg [=]] |].
    by intros [? _]. }
  destruct (steamApps (getAppList io st)) as [|g apps] eqn:Hs.
  { split; [split; [by intros [msg [=]] | done] |].
    split; [done | by eexists]. }
  destruct (fuseInstance (getAppList io st)) as [fuse|];
    [| by destruct Hidx].
  destruct (cache_get now _ _) as [[[v|cached]|] c1]; simpl;
    try destruct (js_truthy v); simpl;
    (split; [split; [by intros [msg [=]] | done] |
             split; [by intros [msg [=]] | by intros [_ ?]]]).
Qed.

Lemma games_search_status_witness :
  (exists msg,
     fst (@games_search latin_case (answering many_dota) 0 io_down
            {| q_q := Some (js "   "); q_page := None; q_perPage := None |}
            demo_server) = Error 400 msg)
  <-> trim (default [] (Some (js "   "))) = [].
Proof.
  apply (proj1 (@games_search_status latin_case (answering many_dota) 0
                  io_down
                  {| q_q := Some (js "   "); q_page := None;
                     q_perPage := None |}
                  demo_server demo_server_reachable)).
Defined.

(** X24. GET /games on a loaded catalog changes nothing in the server;
    on an empty catalog it runs the load first, and when the snapshot
    gives a list that is not empty the answer is already a page of that
    list and the server has it active. *)
Theorem games_list_lazy_load `{CaseMapping} (io : LoadIO) (req : Query)
    (st : Server) :
  (steamApps st <> [] -> snd (games_list io req st) = st) /\
  (forall apps,
     steamApps st = [] -> load_from (io_read io) = Some apps -> apps <> [] ->
     games_list io req st
     = (Json {| lb_total := Z.of_nat (length apps);
                lb_page := page_of (q_page req);
                lb_perPage := perPage_of (q_perPage req);
                lb_games :=
                  slice apps
                    ((page_of (q_page req) - 1) * perPage_of (q_perPage req))
                    (page_of (q_page req) * perPage_of (q_perPage req)) |},
        activate apps st)).
Proof.
  split.
  - intros Hloaded. unfold games_list, getAppList.
    destruct (steamApps st) as [|g apps] eqn:Hs; [done |]. by rewrite Hs.
  - intros apps Hempty Hread Hne. unfold games_list, getAppList.
    rewrite Hempty. unfold initAppList, snapshot_path. rewrite Hread.
    simpl. by destruct apps.
Qed.

Lemma games_list_lazy_load_witness :
  snd (@games_list latin_case io_snapshot
         {| q_q := None; q_page := None; q_perPage := None |} initial)
  = demo_server.
Proof.
  rewrite (proj2 (@games_list_lazy_load latin_case io_snapshot
                    {| q_q := None; q_page := None; q_perPage := None |}
                    initial) demo_apps ltac:(reflexivity) ltac:(reflexivity)
             ltac:(vm_compute; discriminate)).
  reflexivity.
Defined.

Lemma games_list_body `{CaseMapping} (io : LoadIO) (req : Query) (st : Server)
    (body : ListBody) :
  fst (games_list io req st) = Json body ->
  exists l,
    body = {| lb_total := Z.of_nat (length l);
              lb_page := page_of (q_page req);
              lb_perPage := perPage_of (q_perPage req);
              lb_games :=
                slice l
                  ((page_of (q_page req) - 1) * perPage_of (q_perPage req))
                  (page_of (q_page req) * perPage_of (q_perPage req)) |}.
Proof.
  unfold games_list.
  destruct (steamApps (getAppList io st)) as [|g apps]; [done |].
  cbn [fst]. intros [= <-]. by exists (g :: apps).
Qed.

Lemma page_of_positive (param : option jsstring) : 1 <= page_of param.
Proof. unfold page_of. lia. Qed.

(** X25. With a perPage of at least 1, a page of /games holds exactly
    [min(perPage, total - (page - 1) * perPage)] games, and none when
    that is negative: never more than perPage, which is at most 100,
    and nothing past the end of the catalog. *)
Theorem games_list_page_size `{CaseMapping} (io : LoadIO) (req : Query)
    (st : Server) (body : ListBody) :
  fst (games_list io req st) = Json body ->
  1 <= lb_perPage body ->
  Z.of_nat (length (lb_games body))
  = Z.max 0 (Z.min (lb_perPage body)
               (lb_total body - (lb_page body - 1) * lb_perPage body)) /\
  lb_perPage body <= 100.
Proof.
  intros Hbody Hper. apply games_list_body in Hbody as [l ->]. simpl in *.
  split; [| unfold perPage_of; lia].
  pose proof (page_of_positive (q_page req)) as Hpage.
  set (page := page_of (q_page req)) in *.
  set (per := perPage_of (q_perPage req)) in *.
  replace (page - 1) with (Z.of_nat (Z.to_nat (page - 1))) by lia.
  replace (page * per) with ((Z.of_nat (Z.to_nat (page - 1)) + 1) * per)
    by (f_equal; lia).
  rewrite slice_window by done.
  rewrite length_take, length_drop. nia.
Qed.

Lemma games_list_page_size_witness :
  Z.of_nat (length (lb_games
    {| lb_total := 5; lb_page := 3; lb_perPage := 2;
       lb_games := drop 4 demo_apps |}))
  = Z.max 0 (Z.min 2 (5 - (3 - 1) * 2)) /\ 2 <= 100.
Proof.
  apply (@games_list_page_size latin_case io_down
           {| q_q := None; q_page := Some (js "3");
              q_perPage := Some (js "2") |} demo_server
           {| lb_total := 5; lb_page := 3; lb_perPage := 2;
              lb_games := drop 4 demo_apps |});
    [reflexivity | simpl; lia].
Defined.



(** ** The cache of search results *)

(** X27. After a search that computed its list at time [now], every
    search whose trimmed query has the same lowercase form gets pages
    of that same list during the next 300 seconds, also when the
    catalog has been replaced or the matcher would answer differently
    in between. *)
Theorem games_search_cached_300s `{CaseMapping} (E1 E2 : FuzzyEngine)
    (now t : Z) (io1 io2 : LoadIO) (req1 req2 : Query) (st st2 : Server)
    (fuse : Fuse) :
  steamApps st <> [] -> fuseInstance st = Some fuse ->
  trim (default [] (q_q req1)) <> [] ->
  cache st !! search_key (trim (default [] (q_q req1))) = None ->
  trim (default [] (q_q req2)) <> [] ->
  toLowerCase (trim (default [] (q_q req2)))
  = toLowerCase (trim (default [] (q_q req1))) ->
  t <= now + 300 * 1000 ->
  steamApps st2 <> [] -> fuseInstance st2 <> None ->
  cache st2 = cache (snd (@games_search _ E1 now io1 req1 st)) ->
  fst (@games_search _ E2 t io2 req2 st2)
  = Json (search_page
            (rank_results (toLowerCase (trim (default [] (q_q req1))))
               (@fuse_search E1 fuse (trim (default [] (q_q req1)))
                  maxResults))
            (page_of (q_page req2)) (perPage_of (q_perPage req2))).
Proof.
  intros Hloaded Hfuse Hq1 Hmiss Hq2 Hsame Ht Hloaded2 Hfuse2 Hcache.
  assert (cache st2
          = cache_set now (search_key (trim (default [] (q_q req1))))
              (CGames
                 (rank_results (toLowerCase (trim (default [] (q_q req1))))
                    (@fuse_search E1 fuse (trim (default [] (q_q req1)))
                       maxResults)))
              (Some 300) (cache st)) as Hc2.
  { rewrite Hcache. unfold games_search, getAppList.
    destruct (trim (default [] (q_q req1))) as [|x query]; [done |].
    destruct (steamApps st) as [|g apps] eqn:Hs; [done |].
    rewrite Hs, Hfuse. unfold cache_get. by rewrite Hmiss. }
  unfold games_search, getAppList.
  destruct (trim (default [] (q_q req2))) as [|y query2] eqn:Hq2'; [done |].
  destruct (steamApps st2) as [|g2 apps2] eqn:Hs2; [done |].
  rewrite Hs2. destruct (fuseInstance st2) as [fuse2|]; [| done].
  assert (search_key (y :: query2)
          = search_key (trim (default [] (q_q req1)))) as Hkey
    by (unfold search_key; by rewrite Hsame).
  rewrite Hkey, Hc2. unfold cache_get, cache_set.
  rewrite lookup_insert_eq. unfold expired, wrap.
  change (300 =? 0) with false. cbn [e_t e_v].
  destruct (now + 300 * 1000 =? 0); simpl; [done |].
  destruct (now + 300 * 1000 <? t) eqn:E; [apply Z.ltb_lt in E; lia |].
  reflexivity.
Qed.

Lemma games_search_cached_300s_witness :
  fst (@games_search latin_case (answering []) 300000 io_down
         {| q_q := Some (js " DOTA "); q_page := Some (js "2");
            q_perPage := None |}
         (set_cache
            (cache (snd (@games_search latin_case (answering many_dota) 0
                           io_down dota_query demo_server)))
            (activate [half_life_app] initial)))
  = Json (search_page
            (rank_results (toLowerCase_latin (js "dota"))
               (@fuse_search (answering many_dota)
                  (createFuseIndex demo_apps) (js "dota") maxResults))
            2 16).
Proof.
  apply (@games_search_cached_300s latin_case (answering many_dota)
           (answering []) 0 300000 io_down io_down dota_query
           {| q_q := Some (js " DOTA "); q_page := Some (js "2");
              q_perPage := None |}
           demo_server
           (set_cache
              (cache (snd (@games_search latin_case (answering many_dota) 0
                             io_down dota_query demo_server)))
              (activate [half_life_app] initial))
           (createFuseIndex demo_apps));
    try reflexivity; try (vm_compute; discriminate).
Defined.

Lemma games_search_body `{CaseMapping} `{FuzzyEngine} (now : Z) (io : LoadIO)
    (req : Query) (st : Server) (body : SearchBody) :
  fst (games_search now io req st) = Json body ->
  exists l,
    body = search_page l (page_of (q_page req)) (perPage_of (q_perPage req)).
Proof.
  unfold games_search.
  destruct (trim (default [] (q_q req))); [done |].
  destruct (steamApps (getAppList io st)); [done |].
  destruct (fuseInstance (getAppList io st)); [| done].
  destruct (cache_get now _ _) as [[[v|cached]|] c1]; simpl.
  - destruct (js_truthy v); simpl; [done |]. intros [= <-]. by eexists.
  - intros [= <-]. by eexists.
  - intros [= <-]. by eexists.
Qed.

(** X28. With a perPage of at least 1, the [totalPages] of a search
    answer is the least number of pages that hold [total] results, a
    page holds at most perPage games, and a page after the last one is
    empty. *)
Theorem games_search_total_pages `{CaseMapping} `{FuzzyEngine} (now : Z)
    (io : LoadIO) (req : Query) (st : Server) (body : SearchBody) :
  fst (games_search now io req st) = Json body ->
  1 <= sb_perPage body ->
  sb_total body <= sb_totalPages body * sb_perPage body /\
  sb_totalPages body * sb_perPage body < sb_total body + sb_perPage body /\
  Z.of_nat (length (sb_games body)) <= sb_perPage body /\
  (sb_totalPages body < sb_page body -> sb_games body = []).
Proof.
  intros Hbody Hper. apply games_search_body in Hbody as [l ->].
  simpl in *.
  pose proof (page_of_positive (q_page req)) as Hpage.
  set (page := page_of (q_page req)) in *.
  set (per := perPage_of (q_perPage req)) in *.
  set (total := Z.of_nat (length l)).
  assert (total <= ceil_div total per * per
          /\ ceil_div total per * per < total + per) as [Hlo Hhi].
  { unfold ceil_div.
    pose proof (Z.div_mod (- total) per ltac:(lia)) as Hdm.
    pose proof (Z.mod_pos_bound (- total) per ltac:(lia)) as Hmod.
    nia. }
  assert (slice l ((page - 1) * per) (page * per)
          = take (Z.to_nat per) (drop (Z.to_nat (page - 1) * Z.to_nat per) l))
    as Hslice.
  { rewrite <- (slice_window l (Z.to_nat (page - 1)) per Hper).
    f_equal; [f_equal; lia | f_equal; lia]. }
  rewrite Hslice.
  split; [done |]. split; [done |]. split.
  - rewrite length_take. lia.
  - intros Hbeyond. rewrite drop_ge; [by destruct (Z.to_nat per) |].
    unfold total in *. nia.
Qed.

Lemma games_search_total_pages_witness :
  sb_total half_life_body
  <= sb_totalPages half_life_body * sb_perPage half_life_body /\
  sb_totalPages half_life_body * sb_perPage half_life_body
  < sb_total half_life_body + sb_perPage half_life_body /\
  Z.of_nat (length (sb_games half_life_body)) <= sb_perPage half_life_body /\
  (sb_totalPages half_life_body < sb_page half_life_body ->
   sb_games half_life_body = []).
Proof.
  apply (@games_search_total_pages latin_case (answering [half_life_hit])
           1000 io_down half_life_query (activate [half_life_app] initial)
           half_life_body); [vm_compute; reflexivity | vm_compute; discriminate].
Defined.

(** ** The asset routes *)

(** X30. The routes /games/:appid/logos and /games/:appid/heroes answer
    400, without touching the cache, exactly for an appid that
    [parseInt] cannot read; for every other appid they answer 200, and
    when nothing usable is cached and SteamGridDB does not deliver
    assets (a rejected request, an unknown game, a missing id) the
    body holds the empty list: an upstream failure is never an error
    of the route. *)
Theorem games_assets_answers (now later : Z) (apiKey : option jsstring)
    (assetType : AssetType) (param : jsstring) (io : GridIO) (c : Cache) :
  (parseInt (Some param) = None <->
   exists msg,
     fst (games_assets now later apiKey assetType param io c)
     = Error 400 msg) /\
  (parseInt (Some param) = None ->
   snd (games_assets now later apiKey assetType param io c) = c) /\
  (forall id,
     parseInt (Some param) = Some id ->
     exists assets,
       fst (games_assets now later apiKey assetType param io c)
       = Json {| ab_kind := assetType; ab_assets := assets |} /\
       ((forall v, live now (assets_key assetType id) c v ->
                   truthy v = false) ->
        asset_outcome io <> AssetsFound ->
        assets = empty_assets)).
Proof.
  unfold games_assets. split; [| split].
  - destruct (parseInt (Some param)) as [id|].
    + split; [done |].
      destruct (fetchSteamGridAssets now later apiKey io id assetType c).
      by intros [msg [=]].
    + split; [by eexists | done].
  - by intros ->.
  - intros id ->.
    destruct (fetchSteamGridAssets now later apiKey io id assetType c)
      as [assets c'] eqn:Hfetch.
    exists assets. split; [done |]. intros Hno Hout.
    apply cache_get_not_live in Hno.
    replace assets
      with (fst (fetchSteamGridAssets now later apiKey io id assetType c))
      by (by rewrite Hfetch).
    clear Hfetch. unfold fetchSteamGridAssets.
    destruct (cache_get now (assets_key assetType id) c) as [cached c1].
    simpl in Hno.
    set (miss := match apiKey with None | Some [] => _ | Some _ => _ end).
    assert (fst miss = empty_assets) as Hmiss.
    { unfold miss, assets_failed. unfold asset_outcome in Hout.
      destruct apiKey as [[|x k]|]; try done.
      destruct (grid_game io) as [searchResp | status]; [| done].
      destruct (sr_success searchResp); simpl in *; [| done].
      destruct (sr_id searchResp) as [gameId|]; [| done].
      by destruct (grid_assets io gameId). }
    destruct cached as [v|]; [by rewrite Hno | done].
Qed.

Lemma games_assets_answers_witness :
  exists assets,
    fst (games_assets 0 1000 api_key logos (js "570") grid_500 ∅)
    = Json {| ab_kind := logos; ab_assets := assets |} /\
    ((forall v, live 0 (assets_key logos 570) ∅ v -> truthy v = false) ->
     asset_outcome grid_500 <> AssetsFound ->
     assets = empty_assets).
Proof.
  apply (proj2 (proj2 (games_assets_answers 0 1000 api_key logos (js "570")
                         grid_500 ∅)) 570).
  reflexivity.
Defined.
